(** * Force-directed layout controller of the graph visualisation

    A shallow embedding of
    [neo4j-arc/graph-visualization/GraphVisualizer/Graph/visualization/ForceSimulation.ts].

    JavaScript numbers are idealised as real numbers.  The d3-force engine
    that the controller drives is an imported library; it is modelled by
    the module [D3] below, operation by operation, with the force
    implementations themselves (many-body, collision, ...) left abstract. *)

From Stdlib Require Import List String Bool Arith Lia.
From Stdlib Require Import Reals Lra.
Import ListNotations.

Local Open Scope string_scope.
Local Open Scope list_scope.
Local Open Scope R_scope.

(** ** Data model *)

(** Modelled from the spec: the [NodeModel] class, whose file [models/Node]
    is missing.  A node has a unique identifier, a position and a velocity;
    the velocity components are [None] until the engine first initialises
    them (JavaScript [undefined]). *)
Record NodeModel := mkNode {
  id : string;
  x : R;
  y : R;
  vx : option R;
  vy : option R
}.

(** Modelled from the spec: the [RelationshipModel] class, whose file
    [models/Relationship] is missing.  A relationship refers to its source
    and its target node. *)
Record RelationshipModel := mkRel {
  rel_id : string;
  source : NodeModel;
  target : NodeModel
}.

(** Modelled from the spec: the [NodePair] class, whose file is missing: a
    group of parallel relationships, all between the same unordered pair
    of endpoint nodes. *)
Record NodePair := mkPair {
  nodeA : NodeModel;
  nodeB : NodeModel;
  relationships : list RelationshipModel
}.

(** Modelled from the spec: the [GraphModel] class, whose file
    [models/Graph] is missing; the controller reads it through [nodes] and
    [groupedRelationships] only. *)
Record GraphModel := mkGraph {
  graph_nodes : list NodeModel;
  graph_relationships : list RelationshipModel
}.

(** [graph.nodes()]: the current ordered node list. *)
Definition nodes (graph : GraphModel) : list NodeModel := graph_nodes graph.

(** An unordered pair of node identifiers, compared up to swapping. *)
Definition PairKey : Type := (string * string)%type.

Definition sameKey (k1 k2 : PairKey) : bool :=
  (String.eqb (fst k1) (fst k2) && String.eqb (snd k1) (snd k2))
  || (String.eqb (fst k1) (snd k2) && String.eqb (snd k1) (fst k2)).

Definition keyOf (r : RelationshipModel) : PairKey :=
  (id (source r), id (target r)).

Definition pairKey (p : NodePair) : PairKey := (id (nodeA p), id (nodeB p)).

(** Two relationships are parallel when they join the same unordered pair
    of nodes. *)
Definition samePair (r1 r2 : RelationshipModel) : bool :=
  sameKey (keyOf r1) (keyOf r2).

(** Modelled from the spec: files a relationship under the group of its
    unordered endpoint pair, opening a new group at the end when there is
    none yet. *)
Fixpoint addToGroups (r : RelationshipModel) (groups : list NodePair)
  : list NodePair :=
  match groups with
  | [] => [mkPair (source r) (target r) [r]]
  | p :: ps =>
      if sameKey (pairKey p) (keyOf r)
      then mkPair (nodeA p) (nodeB p) (relationships p ++ [r]) :: ps
      else p :: addToGroups r ps
  end.

(** Modelled from the spec: [graph.groupedRelationships()], the
    pair-grouping accessor of [GraphModel], which is missing with the
    class: the groups of parallel relationships, keyed by unordered
    endpoint pair. *)
Definition groupedRelationships (graph : GraphModel) : list NodePair :=
  fold_left (fun groups r => addToGroups r groups)
            (graph_relationships graph) [].

(** [oneRelationshipPerPairOfNodes]: the first relationship of every group.
    Reading index 0 of an empty array gives [undefined], here [None]. *)
Definition oneRelationshipPerPairOfNodes (graph : GraphModel)
  : list (option RelationshipModel) :=
  map (fun pair => nth_error (relationships pair) 0)
      (groupedRelationships graph).

(** ** Forces and the engine state *)

(** A force as configured by the controller: its kind and parameters. *)
Inductive Force :=
| ForceManyBody (strength : R)
| ForceX (x0 : R) (strength : R)
| ForceY (y0 : R) (strength : R)
| ForceCollide (radius : R)
| ForceLink (links : list (option RelationshipModel)) (distance : R).

(** The two listeners that the controller's constructor attaches to the
    engine's events. *)
Inductive Listener := OnTick | OnEnd.

(** The variables closed over by a d3-force simulation.  [sim_forces] is
    the force registry, a map from name to force that keeps insertion
    order; [sim_stepper] tells whether the per-frame timer is active. *)
Record Simulation := mkSim {
  sim_alpha : R;
  sim_alphaMin : R;
  sim_velocityDecay : R;
  sim_forces : list (string * Force);
  sim_listeners : list (string * Listener);
  sim_nodes : list NodeModel;
  sim_stepper : bool
}.

(** Reverse application, for chains of method calls. *)
Notation "s |> f" := (f s) (at level 45, left associativity, only parsing).

(** Association lists used as insertion-ordered maps (a JavaScript [Map]). *)
Section AssocMap.
Context {V : Type}.

Fixpoint mapGet (name : string) (m : list (string * V)) : option V :=
  match m with
  | [] => None
  | (n, v) :: rest => if String.eqb n name then Some v else mapGet name rest
  end.

(** [Map.set]: replaces the value of an existing key where it stands, and
    appends a new key. *)
Fixpoint mapSet (name : string) (v : V) (m : list (string * V))
  : list (string * V) :=
  match m with
  | [] => [(name, v)]
  | (n, w) :: rest =>
      if String.eqb n name then (n, v) :: rest
      else (n, w) :: mapSet name v rest
  end.

Definition mapKeys (m : list (string * V)) : list string := map fst m.
End AssocMap.

(** Modelled from the spec: the d3-force simulation engine, an imported
    library whose code is missing; the controller holds only calls of it.
    Each definition carries the name of the method it stands for. *)
Module D3.

(** The engine's [alphaTarget] and [alphaDecay] keep the values they get
    when the simulation is created: the controller never sets them. *)
Definition alphaTarget : R := 0.
Definition alphaDecay : R := 1 - Rpower (1 / 1000) (/ 300).

(** [initializeNodes]: velocities that are not numbers yet start at 0. *)
Definition initializeNode (n : NodeModel) : NodeModel :=
  match vx n, vy n with
  | Some _, Some _ => n
  | _, _ => mkNode (id n) (x n) (y n) (Some 0) (Some 0)
  end.

Definition initializeNodes (ns : list NodeModel) : list NodeModel :=
  map initializeNode ns.

(** [forceSimulation()]: a new simulation, whose timer is started. *)
Definition forceSimulation : Simulation :=
  {| sim_alpha := 1;
     sim_alphaMin := 1 / 1000;
     sim_velocityDecay := 6 / 10;
     sim_forces := [];
     sim_listeners := [];
     sim_nodes := [];
     sim_stepper := true |}.

Definition velocityDecay (v : R) (s : Simulation) : Simulation :=
  mkSim (sim_alpha s) (sim_alphaMin s) (1 - v) (sim_forces s)
        (sim_listeners s) (sim_nodes s) (sim_stepper s).

Definition force (name : string) (f : Force) (s : Simulation) : Simulation :=
  mkSim (sim_alpha s) (sim_alphaMin s) (sim_velocityDecay s)
        (mapSet name f (sim_forces s))
        (sim_listeners s) (sim_nodes s) (sim_stepper s).

Definition on (type : string) (l : Listener) (s : Simulation) : Simulation :=
  mkSim (sim_alpha s) (sim_alphaMin s) (sim_velocityDecay s) (sim_forces s)
        (mapSet type l (sim_listeners s)) (sim_nodes s) (sim_stepper s).

Definition nodes (ns : list NodeModel) (s : Simulation) : Simulation :=
  mkSim (sim_alpha s) (sim_alphaMin s) (sim_velocityDecay s) (sim_forces s)
        (sim_listeners s) (initializeNodes ns) (sim_stepper s).

Definition alpha (a : R) (s : Simulation) : Simulation :=
  mkSim a (sim_alphaMin s) (sim_velocityDecay s) (sim_forces s)
        (sim_listeners s) (sim_nodes s) (sim_stepper s).

Definition alphaMin (a : R) (s : Simulation) : Simulation :=
  mkSim (sim_alpha s) a (sim_velocityDecay s) (sim_forces s)
        (sim_listeners s) (sim_nodes s) (sim_stepper s).

Definition stop (s : Simulation) : Simulation :=
  mkSim (sim_alpha s) (sim_alphaMin s) (sim_velocityDecay s) (sim_forces s)
        (sim_listeners s) (sim_nodes s) false.

Definition restart (s : Simulation) : Simulation :=
  mkSim (sim_alpha s) (sim_alphaMin s) (sim_velocityDecay s) (sim_forces s)
        (sim_listeners s) (sim_nodes s) true.

Section Engine.
(** What a force does to the velocities of the nodes at a given alpha;
    the force implementations are not modelled. *)
Variable applyForce : Force -> R -> list NodeModel -> list NodeModel.

(** The velocity of a node decays, then moves the node. *)
Definition moveNode (decay : R) (n : NodeModel) : NodeModel :=
  let vx' := match vx n with Some v => v * decay | None => 0 end in
  let vy' := match vy n with Some v => v * decay | None => 0 end in
  mkNode (id n) (x n + vx') (y n + vy') (Some vx') (Some vy').

(** One iteration of the loop of [tick]. *)
Definition iteration (s : Simulation) : Simulation :=
  let a := sim_alpha s + (alphaTarget - sim_alpha s) * alphaDecay in
  let pushed :=
    fold_left (fun ns nf => applyForce (snd nf) a ns)
              (sim_forces s) (sim_nodes s) in
  mkSim a (sim_alphaMin s) (sim_velocityDecay s) (sim_forces s)
        (sim_listeners s)
        (map (moveNode (sim_velocityDecay s)) pushed)
        (sim_stepper s).

(** [tick(iterations)]: runs the loop, dispatches no event and leaves
    the timer as it is. *)
Fixpoint tick (iterations : nat) (s : Simulation) : Simulation :=
  match iterations with
  | O => s
  | S k => tick k (iteration s)
  end.
End Engine.

End D3.

(** ** The controller *)

(** A caller's end-of-simulation callback, known by a tag. *)
Definition Callback : Type := nat.

(** What a run of the controller does that can be seen from outside: an
    iteration of the engine's loop, a call of the render callback, a call
    of the end-of-simulation callback. *)
Inductive Effect :=
| Ticked
| Rendered
| EndCallbackCalled (cb : Callback).

(** The fields of the [ForceSimulation] class, and the effects so far. *)
Record ForceSimulation := mkFS {
  simulation : Simulation;
  simulationTimeout : option nat;
  endSimulationCallback : option Callback;
  trace : list Effect
}.

(** Modelled from the spec: [circularLayout], whose file
    [utils/circularLayout] is missing, gives every node a position on the
    circle of the given centre and radius, the nodes evenly spaced. *)
Fixpoint placeFrom (i k : nat) (center : R * R) (radius : R)
         (ns : list NodeModel) : list NodeModel :=
  match ns with
  | [] => []
  | n :: rest =>
      let angle := 2 * PI * INR i / INR k in
      mkNode (id n)
             (fst center + radius * sin angle)
             (snd center + radius * cos angle)
             (vx n) (vy n)
      :: placeFrom (S i) k center radius rest
  end.

Definition circularLayout (ns : list NodeModel) (center : R * R) (radius : R)
  : list NodeModel :=
  placeFrom 0 (List.length ns) center radius ns.

(** ** Configuration *)

(** The constants that the controller imports from [constants.ts]; the
    file is missing, so their values are left open. *)
Class Constants := {
  DEFAULT_ALPHA : R;
  DEFAULT_ALPHA_MIN : R;
  FORCE_CENTER_X : R;
  FORCE_CENTER_Y : R;
  FORCE_CHARGE : R;
  FORCE_COLLIDE_RADIUS : R;
  FORCE_LINK_DISTANCE : R;
  LINK_DISTANCE : R;
  PRECOMPUTED_TICKS : nat;
  TICKS_PER_RENDER : nat;
  VELOCITY_DECAY : R
}.

(** The force implementations of the engine: what a force does to the
    velocities of the nodes at a given alpha. *)
Class ForceImplementation := {
  applyForce : Force -> R -> list NodeModel -> list NodeModel
}.

(** ** The graph component *)

(** The React component [Graph] that shows the visualisation with its three
    zoom buttons: its props and state, its event handlers,
    [componentDidUpdate] and what [render] shows.  The [Visualization]
    object it drives is known here by the calls it receives. *)
Module GraphComponent.

(** The kinds of zoom ([ZoomType]) that the buttons ask for. *)
Inductive ZoomType := IN | OUT | FIT.

(** The calls that the component makes on its visualisation. *)
Inductive VisualizationCall :=
| Resize (isFullscreen wheelZoomRequiresModKey : bool)
| Init
| ZoomByType (type : ZoomType).

(** The argument of [handleZoomEvent] ([ZoomLimitsReached]). *)
Record ZoomLimitsReached := mkLimits {
  limitIn : bool;
  limitOut : bool
}.

(** The props that the handlers, [componentDidUpdate] and [render] read;
    an optional prop that is left out is [None]. *)
Record GraphProps := mkProps {
  isFullscreen : bool;
  styleVersion : R;
  offset : R;
  wheelZoomRequiresModKey : option bool;
  wheelZoomInfoMessageEnabled : option bool
}.

Record GraphState := mkState {
  zoomInLimitReached : bool;
  zoomOutLimitReached : bool;
  displayingWheelZoomInfoMessage : bool
}.

(** The component: its props and state, the calls received so far by its
    visualisation ([None] while [this.visualization] is null), and how
    often [setState] was called. *)
Record Graph := mkComponent {
  props : GraphProps;
  state : GraphState;
  visualization : option (list VisualizationCall);
  setStateCalls : nat
}.

(** Whether an optional boolean prop is truthy. *)
Definition truthy (b : option bool) : bool :=
  match b with Some true => true | _ => false end.

(** [this.setState(...)], the new state merged in by the caller. *)
Definition setState (s : GraphState) (g : Graph) : Graph :=
  mkComponent (props g) s (visualization g) (S (setStateCalls g)).

(** [this.visualization?.f(...)]. *)
Definition callVisualization (c : VisualizationCall) (g : Graph) : Graph :=
  match visualization g with
  | Some calls =>
      mkComponent (props g) (state g) (Some (calls ++ [c])) (setStateCalls g)
  | None => g
  end.

(** [constructor(props)]. *)
Definition constructor (p : GraphProps) : Graph :=
  mkComponent p (mkState false false false) None 0.

Definition handleZoomEvent (limitsReached : ZoomLimitsReached) (g : Graph)
  : Graph :=
  if negb (Bool.eqb (limitIn limitsReached) (zoomInLimitReached (state g)))
     || negb (Bool.eqb (limitOut limitsReached)
                       (zoomOutLimitReached (state g)))
  then setState (mkState (limitIn limitsReached) (limitOut limitsReached)
                         (displayingWheelZoomInfoMessage (state g))) g
  else g.

Definition displayZoomWheelInfoMessage (display : bool) (g : Graph) : Graph :=
  setState (mkState (zoomInLimitReached (state g))
                    (zoomOutLimitReached (state g)) display) g.

Definition handleDisplayZoomWheelInfoMessage (g : Graph) : Graph :=
  if negb (displayingWheelZoomInfoMessage (state g))
     && truthy (wheelZoomRequiresModKey (props g))
     && truthy (wheelZoomInfoMessageEnabled (props g))
  then displayZoomWheelInfoMessage true g
  else g.

Definition zoomInClicked (g : Graph) : Graph :=
  callVisualization (ZoomByType IN) g.

Definition zoomOutClicked (g : Graph) : Graph :=
  callVisualization (ZoomByType OUT) g.

Definition zoomToFitClicked (g : Graph) : Graph :=
  callVisualization (ZoomByType FIT) g.

(** [componentDidUpdate(prevProps)], run on the component that already has
    its new props. *)
Definition componentDidUpdate (prevProps : GraphProps) (g : Graph) : Graph :=
  let g1 :=
    if Bool.eqb (isFullscreen (props g)) (isFullscreen prevProps)
    then g
    else callVisualization
           (Resize (isFullscreen (props g))
                   (truthy (wheelZoomRequiresModKey (props g)))) g in
  if Req_dec_T (styleVersion (props g1)) (styleVersion prevProps)
  then g1
  else callVisualization Init g1.

(** What [render] shows: the class names of the zoom-in and the zoom-out
    button, the size of the icons, the props of the button holder, and
    whether the overlay with the wheel zoom message is there. *)
Record View := mkView {
  zoomInClassName : string;
  zoomOutClassName : string;
  iconsLarge : bool;
  holderOffset : R;
  holderIsFullscreen : bool;
  overlay : bool
}.

Definition render (g : Graph) : View :=
  mkView (if zoomInLimitReached (state g) then "faded zoom-in" else "zoom-in")
         (if zoomOutLimitReached (state g)
          then "faded zoom-out" else "zoom-out")
         (isFullscreen (props g))
         (offset (props g))
         (isFullscreen (props g))
         (truthy (wheelZoomInfoMessageEnabled (props g))
          && displayingWheelZoomInfoMessage (state g)).

(** What the user and the visualisation do to a mounted component. *)
Inductive Event :=
| ZoomEvent (limitsReached : ZoomLimitsReached)
| WheelZoomAttempt
| ZoomInClick
| ZoomOutClick
| ZoomToFitClick.

Definition handle (e : Event) (g : Graph) : Graph :=
  match e with
  | ZoomEvent limitsReached => handleZoomEvent limitsReached g
  | WheelZoomAttempt => handleDisplayZoomWheelInfoMessage g
  | ZoomInClick => zoomInClicked g
  | ZoomOutClick => zoomOutClicked g
  | ZoomToFitClick => zoomToFitClicked g
  end.

Definition handleAll (es : list Event) (g : Graph) : Graph :=
  fold_left (fun g e => handle e g) es g.

Definition isZoomEvent (e : Event) : bool :=
  match e with ZoomEvent _ => true | _ => false end.

Definition isWheelZoomAttempt (e : Event) : bool :=
  match e with WheelZoomAttempt => true | _ => false end.

(** The call that a click makes on the visualisation. *)
Definition clickCall (e : Event) : list VisualizationCall :=
  match e with
  | ZoomInClick => [ZoomByType IN]
  | ZoomOutClick => [ZoomByType OUT]
  | ZoomToFitClick => [ZoomByType FIT]
  | _ => []
  end.

End GraphComponent.

(** ** Sample data *)

Definition sampleA : NodeModel := mkNode "A" 0 0 None None.
Definition sampleB : NodeModel := mkNode "B" 0 0 None None.
Definition sampleC : NodeModel := mkNode "C" 0 0 None None.
Definition sampleZ : NodeModel := mkNode "Z" 0 0 None None.

Definition sampleAB : RelationshipModel := mkRel "r1" sampleA sampleB.
Definition sampleBA : RelationshipModel := mkRel "r2" sampleB sampleA.
Definition sampleBC : RelationshipModel := mkRel "r3" sampleB sampleC.
Definition sampleAZ : RelationshipModel := mkRel "r4" sampleA sampleZ.

(** Three nodes, two parallel relationships between A and B, and one
    between B and C. *)
Definition sampleGraph : GraphModel :=
  mkGraph [sampleA; sampleB; sampleC] [sampleAB; sampleBA; sampleBC].

(** A graph whose only relationship ends at a node that the graph does
    not hold. *)
Definition danglingGraph : GraphModel := mkGraph [sampleA] [sampleAZ].

(** A sample configuration. *)
Definition sampleConstants : Constants :=
  {| DEFAULT_ALPHA := 1;
     DEFAULT_ALPHA_MIN := 5 / 100;
     FORCE_CENTER_X := 3 / 100;
     FORCE_CENTER_Y := 3 / 100;
     FORCE_CHARGE := -400;
     FORCE_COLLIDE_RADIUS := 25;
     FORCE_LINK_DISTANCE := 30;
     LINK_DISTANCE := 45;
     PRECOMPUTED_TICKS := 300;
     TICKS_PER_RENDER := 10;
     VELOCITY_DECAY := 4 / 10 |}.

(** Forces that leave the nodes alone. *)
Definition noForce : ForceImplementation :=
  {| applyForce := fun _ _ ns => ns |}.

(** A configuration whose alpha floor is 0. *)
Definition floorlessConstants : Constants :=
  {| DEFAULT_ALPHA := 1;
     DEFAULT_ALPHA_MIN := 0;
     FORCE_CENTER_X := 3 / 100;
     FORCE_CENTER_Y := 3 / 100;
     FORCE_CHARGE := -400;
     FORCE_COLLIDE_RADIUS := 25;
     FORCE_LINK_DISTANCE := 30;
     LINK_DISTANCE := 45;
     PRECOMPUTED_TICKS := 300;
     TICKS_PER_RENDER := 10;
     VELOCITY_DECAY := 4 / 10 |}.

(** A graph component whose wheel zoom needs a modifier key and may say
    so, with a visualisation that has received no call yet. *)
Definition sampleComponent : GraphComponent.Graph :=
  GraphComponent.mkComponent
    (GraphComponent.mkProps false 1 0 (Some true) (Some true))
    (GraphComponent.mkState false false false)
    (Some []) 0.

Section Controller.

Context {constants : Constants} {engine : ForceImplementation}.

(** A call of a method of [this.simulation]. *)
Definition withSimulation (f : Simulation -> Simulation)
           (fs : ForceSimulation) : ForceSimulation :=
  mkFS (f (simulation fs)) (simulationTimeout fs)
       (endSimulationCallback fs) (trace fs).

(** Records an effect. *)
Definition emit (e : Effect) (fs : ForceSimulation) : ForceSimulation :=
  mkFS (simulation fs) (simulationTimeout fs)
       (endSimulationCallback fs) (trace fs ++ [e]).

(** An assignment to the [endSimulationCallback] field. *)
Definition setEndSimulationCallback (cb : option Callback)
           (fs : ForceSimulation) : ForceSimulation :=
  mkFS (simulation fs) (simulationTimeout fs) cb (trace fs).

(** [this.simulation.tick(n)], each iteration recorded. *)
Definition simulationTick (n : nat) (fs : ForceSimulation)
  : ForceSimulation :=
  mkFS (D3.tick applyForce n (simulation fs)) (simulationTimeout fs)
       (endSimulationCallback fs) (trace fs ++ repeat Ticked n).

(** The render callback given to the constructor. *)
Definition render (fs : ForceSimulation) : ForceSimulation :=
  emit Rendered fs.

(** The bodies of the two listeners of the constructor. *)
Definition runListener (l : Listener) (fs : ForceSimulation)
  : ForceSimulation :=
  match l with
  | OnTick => fs |> simulationTick TICKS_PER_RENDER |> render
  | OnEnd =>
      (match endSimulationCallback fs with
       | Some cb => emit (EndCallbackCalled cb) fs
       | None => fs
       end) |> setEndSimulationCallback None
  end.

(** The engine calls the listener registered for an event, if any. *)
Definition dispatch (type : string) (fs : ForceSimulation)
  : ForceSimulation :=
  match mapGet type (sim_listeners (simulation fs)) with
  | Some l => runListener l fs
  | None => fs
  end.

(** The engine's [step], which its timer runs once per animation frame:
    one iteration, the tick event, and at convergence the timer is
    stopped and the end event follows. *)
Definition step (fs : ForceSimulation) : ForceSimulation :=
  let fs1 := fs |> simulationTick 1 |> dispatch "tick" in
  if Rlt_dec (sim_alpha (simulation fs1)) (sim_alphaMin (simulation fs1))
  then fs1 |> withSimulation D3.stop |> dispatch "end"
  else fs1.

(** An animation frame: the timer calls [step] only while it is active. *)
Definition frame (fs : ForceSimulation) : ForceSimulation :=
  if sim_stepper (simulation fs) then step fs else fs.

(** [n] animation frames in a row. *)
Fixpoint frames (n : nat) (fs : ForceSimulation) : ForceSimulation :=
  match n with
  | O => fs
  | S k => frames k (frame fs)
  end.

(** [constructor(render)]: a new engine with the velocity decay, the three
    standing forces and the two listeners, stopped at once. *)
Definition constructor : ForceSimulation :=
  mkFS (D3.forceSimulation
          |> D3.velocityDecay VELOCITY_DECAY
          |> D3.force "charge" (ForceManyBody FORCE_CHARGE)
          |> D3.force "centerX" (ForceX 0 FORCE_CENTER_X)
          |> D3.force "centerY" (ForceY 0 FORCE_CENTER_Y)
          |> D3.on "tick" OnTick
          |> D3.on "end" OnEnd
          |> D3.stop)
       None None [].

(** [updateNodes(graph)].  [circularLayout] writes the positions into the
    node objects of the graph, and the engine is handed these objects. *)
Definition updateNodes (graph : GraphModel) (fs : ForceSimulation)
  : ForceSimulation :=
  let nodes := nodes graph in
  let radius := (INR (List.length nodes) * LINK_DISTANCE) / (PI * 2) in
  let center := (0, 0) in
  let nodes := circularLayout nodes center radius in
  fs |> withSimulation (fun s =>
          s |> D3.nodes nodes
            |> D3.force "collide" (ForceCollide FORCE_COLLIDE_RADIUS)).

(** [updateRelationships(graph)]. *)
Definition updateRelationships (graph : GraphModel) (fs : ForceSimulation)
  : ForceSimulation :=
  let relationships := oneRelationshipPerPairOfNodes graph in
  fs |> withSimulation
          (D3.force "link" (ForceLink relationships FORCE_LINK_DISTANCE)).

(** [precompute()]. *)
Definition precompute (fs : ForceSimulation) : ForceSimulation :=
  fs |> withSimulation D3.stop
     |> simulationTick PRECOMPUTED_TICKS
     |> render.

(** [restart()]. *)
Definition restart (fs : ForceSimulation) : ForceSimulation :=
  fs |> withSimulation (fun s =>
          s |> D3.alphaMin DEFAULT_ALPHA_MIN
            |> D3.alpha DEFAULT_ALPHA
            |> D3.restart).

(** What can happen to a controller once it is constructed: a call of
    one of its methods, an assignment to its callback field, or an
    animation frame. *)
Inductive Call :=
| CallUpdateNodes (graph : GraphModel)
| CallUpdateRelationships (graph : GraphModel)
| CallPrecompute
| CallRestart
| AssignEndSimulationCallback (cb : option Callback)
| AnimationFrame.

(** What a call does to the controller. *)
Definition perform (c : Call) (fs : ForceSimulation) : ForceSimulation :=
  match c with
  | CallUpdateNodes graph => updateNodes graph fs
  | CallUpdateRelationships graph => updateRelationships graph fs
  | CallPrecompute => precompute fs
  | CallRestart => restart fs
  | AssignEndSimulationCallback cb => setEndSimulationCallback cb fs
  | AnimationFrame => frame fs
  end.

Definition performAll (cs : list Call) (fs : ForceSimulation)
  : ForceSimulation :=
  fold_left (fun fs c => perform c fs) cs fs.

(** The states a controller can be in. *)
Definition reachable (fs : ForceSimulation) : Prop :=
  exists cs, fs = performAll cs constructor.

(** The callbacks called in a trace, in order. *)
Fixpoint endCalls (t : list Effect) : list Callback :=
  match t with
  | [] => []
  | EndCallbackCalled cb :: rest => cb :: endCalls rest
  | _ :: rest => endCalls rest
  end.

Definition isRendered (e : Effect) : bool :=
  match e with Rendered => true | _ => false end.

Definition isTicked (e : Effect) : bool :=
  match e with Ticked => true | _ => false end.

(** How often the render callback was called, and how many iterations
    the engine ran, in a trace. *)
Definition renderCount (t : list Effect) : nat :=
  List.length (filter isRendered t).

Definition tickCount (t : list Effect) : nat :=
  List.length (filter isTicked t).

(** The relationship list held by the force registered as 'link'. *)
Definition linkForceInput (fs : ForceSimulation)
  : option (list (option RelationshipModel)) :=
  match mapGet "link" (sim_forces (simulation fs)) with
  | Some (ForceLink links _) => Some links
  | _ => None
  end.

(** Whether an entry of the link force's input stands for the pair of
    nodes that [r] joins. *)
Definition representsPair (r : RelationshipModel)
           (entry : option RelationshipModel) : bool :=
  match entry with
  | Some r' => samePair r r'
  | None => false
  end.

(** Keys that are pairwise different as unordered pairs. *)
Fixpoint distinctKeys (ks : list PairKey) : Prop :=
  match ks with
  | [] => True
  | k :: rest => Forall (fun k' => sameKey k k' = false) rest
                 /\ distinctKeys rest
  end.

(** Whether the node set holds a node of the given identifier. *)
Definition hasNode (ns : list NodeModel) (i : string) : bool :=
  existsb (fun n => String.eqb (id n) i) ns.

(** Whether a group is the group of the given unordered pair. *)
Definition matchesKey (k : PairKey) (p : NodePair) : bool :=
  sameKey (pairKey p) k.

(** What holds of the groups built from the relationships [rs]. *)
Record grouped (rs : list RelationshipModel) (gs : list NodePair) : Prop := {
  grouped_members :
    Forall (fun p =>
              relationships p <> []
              /\ Forall (fun r => sameKey (pairKey p) (keyOf r) = true
                                  /\ In r rs)
                        (relationships p)) gs;
  grouped_distinct : distinctKeys (map pairKey gs);
  grouped_covers :
    Forall (fun r => existsb (matchesKey (keyOf r)) gs = true) rs;
  grouped_length : (List.length gs <= List.length rs)%nat
}.

(** The listeners a controller is constructed with. *)
Definition wired (fs : ForceSimulation) : Prop :=
  sim_listeners (simulation fs) = [("tick", OnTick); ("end", OnEnd)].

(** What the engine's step does before it tests for convergence: its own
    iteration, then the tick listener. *)
Definition advance (fs : ForceSimulation) : ForceSimulation :=
  fs |> simulationTick 1 |> runListener OnTick.

(** The factor by which one animation frame scales alpha. *)
Definition frameDecay : R := (1 - D3.alphaDecay) ^ (S TICKS_PER_RENDER).

(** Whether a force is registered under the given name. *)
Definition hasForce (name : string) (fs : ForceSimulation) : bool :=
  match mapGet name (sim_forces (simulation fs)) with
  | Some _ => true
  | None => false
  end.

(** The kinds of calls. *)
Definition isUpdateNodes (c : Call) : bool :=
  match c with CallUpdateNodes _ => true | _ => false end.

Definition isUpdateRelationships (c : Call) : bool :=
  match c with CallUpdateRelationships _ => true | _ => false end.

(** The calls that run the engine: [restart] and [precompute]. *)
Definition runsEngine (c : Call) : bool :=
  match c with CallRestart | CallPrecompute => true | _ => false end.

(** An assignment of a callback to the [endSimulationCallback] field. *)
Definition isRegistration (c : Call) : bool :=
  match c with AssignEndSimulationCallback (Some _) => true | _ => false end.

Definition registrations (cs : list Call) : nat :=
  List.length (filter isRegistration cs).

(** Whether a callback is registered and not yet called: 1 or 0. *)
Definition pending (fs : ForceSimulation) : nat :=
  match endSimulationCallback fs with Some _ => 1%nat | None => 0%nat end.

(** The callbacks called so far, and the one still registered. *)
Definition spent (fs : ForceSimulation) : nat :=
  (List.length (endCalls (trace fs)) + pending fs)%nat.

(** More kinds of calls. *)
Definition isFrame (c : Call) : bool :=
  match c with AnimationFrame => true | _ => false end.

Definition isPrecompute (c : Call) : bool :=
  match c with CallPrecompute => true | _ => false end.

Definition isRestart (c : Call) : bool :=
  match c with CallRestart => true | _ => false end.

(** ** Unordered pairs *)

Ltac string_cases :=
  repeat match goal with
         | |- context [String.eqb ?a ?b] =>
             destruct (String.eqb_spec a b); subst; simpl
         | H : context [String.eqb ?a ?b] |- _ =>
             destruct (String.eqb_spec a b); subst; simpl in H
         end;
  try congruence.

Lemma sameKey_refl (k : PairKey) : sameKey k k = true.
Proof.
  destruct k as [a b]. unfold sameKey. simpl.
  rewrite !String.eqb_refl. reflexivity.
Qed.

Lemma sameKey_sym (k1 k2 : PairKey) : sameKey k1 k2 = sameKey k2 k1.
Proof.
  destruct k1 as [a b], k2 as [c d]. unfold sameKey. simpl.
  string_cases.
Qed.

Lemma sameKey_trans (k1 k2 k3 : PairKey) :
  sameKey k1 k2 = true -> sameKey k2 k3 = true -> sameKey k1 k3 = true.
Proof.
  destruct k1 as [a b], k2 as [c d], k3 as [e f]. unfold sameKey. simpl.
  intros H1 H2. string_cases.
Qed.

Lemma sameKey_congr (k1 k2 k3 : PairKey) :
  sameKey k1 k2 = true -> sameKey k1 k3 = sameKey k2 k3.
Proof.
  intros H.
  destruct (sameKey k2 k3) eqn:E23.
  - eapply sameKey_trans; eauto.
  - destruct (sameKey k1 k3) eqn:E13; [|reflexivity].
    rewrite sameKey_sym in H.
    rewrite (sameKey_trans _ _ _ H E13) in E23. discriminate.
Qed.

(** ** The pair-grouping accessor *)

Lemma addToGroups_keys (r : RelationshipModel) (gs : list NodePair) :
  map pairKey (addToGroups r gs) =
  if existsb (matchesKey (keyOf r)) gs
  then map pairKey gs
  else map pairKey gs ++ [keyOf r].
Proof.
  induction gs as [|p ps IH]; simpl.
  - reflexivity.
  - unfold matchesKey at 1.
    destruct (sameKey (pairKey p) (keyOf r)) eqn:E; simpl.
    + reflexivity.
    + rewrite IH. destruct (existsb _ ps); reflexivity.
Qed.

Lemma distinctKeys_snoc (ks : list PairKey) (k : PairKey) :
  distinctKeys ks ->
  Forall (fun k' => sameKey k' k = false) ks ->
  distinctKeys (ks ++ [k]).
Proof.
  induction ks as [|k0 ks IH]; simpl; intros D F.
  - split; [constructor | exact I].
  - destruct D as [D0 D]. inversion F as [|? ? F0 F']; subst.
    split.
    + apply Forall_app. split; [exact D0 | constructor; [exact F0 | constructor]].
    + apply IH; assumption.
Qed.

Lemma addToGroups_members (rs : list RelationshipModel)
      (r : RelationshipModel) (gs : list NodePair) :
  let ok rs' p :=
    relationships p <> []
    /\ Forall (fun r' => sameKey (pairKey p) (keyOf r') = true /\ In r' rs')
              (relationships p) in
  Forall (ok rs) gs -> Forall (ok (rs ++ [r])) (addToGroups r gs).
Proof.
  intros ok.
  assert (weaken : forall p, ok rs p -> ok (rs ++ [r]) p).
  { intros p [Hne Hall]. split; [exact Hne|].
    eapply Forall_impl; [|exact Hall].
    intros r' [Hk Hin]. split; [exact Hk | apply in_or_app; left; exact Hin]. }
  induction gs as [|p ps IH]; simpl; intros F.
  - constructor; [|constructor]. split; simpl.
    + discriminate.
    + constructor; [|constructor]. split.
      * apply sameKey_refl.
      * apply in_or_app. right. left. reflexivity.
  - inversion F as [|? ? Hp Hps]; subst.
    destruct (sameKey (pairKey p) (keyOf r)) eqn:E.
    + constructor.
      * split; simpl.
        -- destruct (relationships p); discriminate.
        -- apply Forall_app. split.
           ++ destruct (weaken p Hp) as [_ Hall]. exact Hall.
           ++ constructor; [|constructor]. split; [exact E|].
              apply in_or_app. right. left. reflexivity.
      * eapply Forall_impl; [|exact Hps]. exact weaken.
    + constructor; [apply weaken; exact Hp | apply IH; exact Hps].
Qed.

Lemma existsb_addToGroups (r : RelationshipModel) (k : PairKey)
      (gs : list NodePair) :
  existsb (matchesKey k) (addToGroups r gs) =
  existsb (matchesKey k) gs
  || (negb (existsb (matchesKey (keyOf r)) gs) && sameKey (keyOf r) k).
Proof.
  unfold matchesKey.
  induction gs as [|p ps IH]; cbn [addToGroups existsb].
  - unfold pairKey, keyOf. simpl. rewrite orb_false_r. reflexivity.
  - destruct (sameKey (pairKey p) (keyOf r)) eqn:E; cbn [existsb negb orb andb].
    + unfold pairKey at 1. cbn [nodeA nodeB]. fold (pairKey p).
      rewrite orb_false_r. reflexivity.
    + rewrite IH. rewrite orb_assoc. reflexivity.
Qed.

Lemma addToGroups_grouped (rs : list RelationshipModel)
      (r : RelationshipModel) (gs : list NodePair) :
  grouped rs gs -> grouped (rs ++ [r]) (addToGroups r gs).
Proof.
  intros [Hm Hd Hc Hl]. split.
  - apply addToGroups_members. exact Hm.
  - rewrite addToGroups_keys.
    destruct (existsb (matchesKey (keyOf r)) gs) eqn:E; [exact Hd|].
    apply distinctKeys_snoc; [exact Hd|].
    apply Forall_forall. intros k Hk.
    apply in_map_iff in Hk. destruct Hk as [p [<- Hp]].
    destruct (sameKey (pairKey p) (keyOf r)) eqn:E'; [|reflexivity].
    assert (existsb (matchesKey (keyOf r)) gs = true) as Habs.
    { apply existsb_exists. exists p. split; [exact Hp | exact E']. }
    congruence.
  - apply Forall_app. split.
    + eapply Forall_impl; [|exact Hc].
      intros r' Hr'. simpl in Hr'. rewrite existsb_addToGroups, Hr'.
      reflexivity.
    + constructor; [|constructor].
      rewrite existsb_addToGroups.
      destruct (existsb (matchesKey (keyOf r)) gs); simpl.
      * reflexivity.
      * apply sameKey_refl.
  - rewrite <- (length_map pairKey), addToGroups_keys.
    rewrite length_app. simpl.
    destruct (existsb (matchesKey (keyOf r)) gs).
    + rewrite length_map. lia.
    + rewrite length_app, length_map. simpl. lia.
Qed.

Lemma fold_addToGroups_grouped (rs done : list RelationshipModel)
      (gs : list NodePair) :
  grouped done gs ->
  grouped (done ++ rs)
          (fold_left (fun groups r => addToGroups r groups) rs gs).
Proof.
  revert done gs.
  induction rs as [|r rs IH]; intros done gs G; simpl.
  - rewrite app_nil_r. exact G.
  - replace (done ++ r :: rs) with ((done ++ [r]) ++ rs)
      by (rewrite <- app_assoc; reflexivity).
    apply IH. apply addToGroups_grouped. exact G.
Qed.

Lemma groupedRelationships_grouped (graph : GraphModel) :
  grouped (graph_relationships graph) (groupedRelationships graph).
Proof.
  unfold groupedRelationships.
  apply (fold_addToGroups_grouped (graph_relationships graph) [] []).
  split; simpl; auto.
Qed.

Lemma filter_none {A : Type} (f : A -> bool) (l : list A) :
  (forall a, In a l -> f a = false) -> filter f l = [].
Proof.
  induction l as [|a l IH]; simpl; intros H; [reflexivity|].
  rewrite (H a (or_introl eq_refl)). apply IH.
  intros b Hb. apply H. right. exact Hb.
Qed.

Lemma filter_matching_one (k : PairKey) (gs : list NodePair) :
  distinctKeys (map pairKey gs) ->
  existsb (matchesKey k) gs = true ->
  List.length (filter (matchesKey k) gs) = 1%nat.
Proof.
  induction gs as [|p ps IH]; simpl; intros D E.
  - discriminate.
  - destruct D as [D0 D].
    destruct (matchesKey k p) eqn:Ep; simpl in *.
    + f_equal.
      rewrite filter_none; [reflexivity|].
      intros q Hq.
      rewrite Forall_forall in D0.
      specialize (D0 (pairKey q) (in_map pairKey _ _ Hq)).
      unfold matchesKey in *.
      rewrite (sameKey_congr _ _ _ Ep), sameKey_sym in D0. exact D0.
    + apply IH; assumption.
Qed.

Lemma representsPair_first (r : RelationshipModel) (p : NodePair)
      (rs : list RelationshipModel) :
  relationships p <> []
  /\ Forall (fun r' => sameKey (pairKey p) (keyOf r') = true /\ In r' rs)
            (relationships p) ->
  exists r0, nth_error (relationships p) 0 = Some r0
             /\ In r0 rs
             /\ representsPair r (Some r0) = matchesKey (keyOf r) p.
Proof.
  intros [Hne Hall].
  destruct (relationships p) as [|r0 rest]; [congruence|].
  inversion Hall as [|? ? [Hk Hin] _]; subst.
  exists r0. repeat split; [exact Hin|].
  unfold representsPair, samePair, matchesKey.
  rewrite (sameKey_congr _ _ _ Hk). apply sameKey_sym.
Qed.

Lemma mapGet_mapSet_same {V : Type} (name : string) (v : V)
      (m : list (string * V)) :
  mapGet name (mapSet name v m) = Some v.
Proof.
  induction m as [|[n w] rest IH]; simpl.
  - rewrite String.eqb_refl. reflexivity.
  - destruct (String.eqb n name) eqn:E; simpl; rewrite E; auto.
Qed.

Lemma mapGet_mapSet_other {V : Type} (name other : string) (v : V)
      (m : list (string * V)) :
  other <> name ->
  mapGet other (mapSet name v m) = mapGet other m.
Proof.
  intros Hne.
  induction m as [|[n w] rest IH]; simpl.
  - destruct (String.eqb_spec name other); congruence.
  - destruct (String.eqb_spec n name); simpl.
    + subst. destruct (String.eqb_spec name other); congruence.
    + rewrite IH. reflexivity.
Qed.

Lemma updateRelationships_link (graph : GraphModel) (fs : ForceSimulation) :
  mapGet "link" (sim_forces (simulation (updateRelationships graph fs)))
  = Some (ForceLink (oneRelationshipPerPairOfNodes graph)
                    FORCE_LINK_DISTANCE).
Proof.
  unfold updateRelationships, withSimulation. simpl.
  apply mapGet_mapSet_same.
Qed.

Lemma oneRelationship_members (graph : GraphModel)
      (entry : option RelationshipModel) :
  In entry (oneRelationshipPerPairOfNodes graph) ->
  exists r, entry = Some r /\ In r (graph_relationships graph).
Proof.
  pose proof (groupedRelationships_grouped graph) as [Hm _ _ _].
  rewrite Forall_forall in Hm.
  unfold oneRelationshipPerPairOfNodes. intros Hin.
  apply in_map_iff in Hin. destruct Hin as [p [<- Hp]].
  destruct (relationships p) as [|r0 rest] eqn:E.
  - destruct (Hm p Hp) as [Hne _]. congruence.
  - destruct (Hm p Hp) as [_ Hall]. rewrite E in Hall.
    inversion Hall as [|? ? [_ Hin] _]; subst.
    exists r0. split; [reflexivity | exact Hin].
Qed.

Lemma oneRelationship_represented (graph : GraphModel)
      (r : RelationshipModel) :
  In r (graph_relationships graph) ->
  List.length (filter (representsPair r)
                      (oneRelationshipPerPairOfNodes graph)) = 1%nat.
Proof.
  pose proof (groupedRelationships_grouped graph) as [Hm Hd Hc _].
  rewrite Forall_forall in Hm.
  intros Hr. unfold oneRelationshipPerPairOfNodes.
  assert (forall gs : list NodePair,
             (forall p, In p gs -> In p (groupedRelationships graph)) ->
             filter (representsPair r)
                    (map (fun pair => nth_error (relationships pair) 0) gs)
             = map (fun pair => nth_error (relationships pair) 0)
                   (filter (matchesKey (keyOf r)) gs)) as Hfilter.
  { induction gs as [|p ps IH]; cbn [map filter]; intros Hsub;
      [reflexivity|].
    destruct (representsPair_first r p _ (Hm p (Hsub p (or_introl eq_refl))))
      as [r0 [H0 [_ Heq]]].
    rewrite H0, Heq, IH by (intros q Hq; apply Hsub; right; exact Hq).
    destruct (matchesKey (keyOf r) p); cbn [map]; rewrite ?H0;
      reflexivity. }
  rewrite Hfilter by auto. rewrite length_map.
  apply filter_matching_one; [exact Hd|].
  rewrite Forall_forall in Hc. apply Hc. exact Hr.
Qed.

(** ** The engine's loop *)

Lemma tick_fields (n : nat) (s : Simulation) :
  let s' := D3.tick applyForce n s in
  sim_alphaMin s' = sim_alphaMin s
  /\ sim_velocityDecay s' = sim_velocityDecay s
  /\ sim_forces s' = sim_forces s
  /\ sim_listeners s' = sim_listeners s
  /\ sim_stepper s' = sim_stepper s.
Proof.
  revert s. induction n as [|n IH]; intros s; simpl.
  - repeat split.
  - destruct (IH (D3.iteration applyForce s)) as (H1 & H2 & H3 & H4 & H5).
    simpl in *. repeat split; assumption.
Qed.

Lemma tick_alphaMin (n : nat) (s : Simulation) :
  sim_alphaMin (D3.tick applyForce n s) = sim_alphaMin s.
Proof. apply tick_fields. Qed.

Lemma tick_forces (n : nat) (s : Simulation) :
  sim_forces (D3.tick applyForce n s) = sim_forces s.
Proof. apply tick_fields. Qed.

Lemma tick_listeners (n : nat) (s : Simulation) :
  sim_listeners (D3.tick applyForce n s) = sim_listeners s.
Proof. apply tick_fields. Qed.

Lemma tick_stepper (n : nat) (s : Simulation) :
  sim_stepper (D3.tick applyForce n s) = sim_stepper s.
Proof. apply tick_fields. Qed.

Lemma tick_alpha (n : nat) (s : Simulation) :
  sim_alpha (D3.tick applyForce n s)
  = sim_alpha s * (1 - D3.alphaDecay) ^ n.
Proof.
  revert s. induction n as [|n IH]; intros s; simpl.
  - ring.
  - rewrite IH. simpl. unfold D3.alphaTarget. ring.
Qed.

Lemma tick_add (n m : nat) (s : Simulation) :
  D3.tick applyForce (n + m) s
  = D3.tick applyForce m (D3.tick applyForce n s).
Proof.
  revert s. induction n as [|n IH]; intros s; simpl; [reflexivity|].
  apply IH.
Qed.

(** ** Counting in traces *)

Lemma renderCount_app (t u : list Effect) :
  renderCount (t ++ u) = (renderCount t + renderCount u)%nat.
Proof. unfold renderCount. rewrite filter_app, length_app. reflexivity. Qed.

Lemma tickCount_app (t u : list Effect) :
  tickCount (t ++ u) = (tickCount t + tickCount u)%nat.
Proof. unfold tickCount. rewrite filter_app, length_app. reflexivity. Qed.

Lemma endCalls_app (t u : list Effect) :
  endCalls (t ++ u) = endCalls t ++ endCalls u.
Proof.
  induction t as [|e t IH]; simpl; [reflexivity|].
  destruct e; simpl; rewrite IH; reflexivity.
Qed.

Lemma renderCount_ticks (n : nat) : renderCount (repeat Ticked n) = 0%nat.
Proof. induction n; simpl; auto. Qed.

Lemma tickCount_ticks (n : nat) : tickCount (repeat Ticked n) = n.
Proof. unfold tickCount. induction n; simpl; auto. Qed.

Lemma endCalls_ticks (n : nat) : endCalls (repeat Ticked n) = [].
Proof. induction n; simpl; auto. Qed.

(** ** What the calls keep *)

Lemma runListener_listeners (l : Listener) (fs : ForceSimulation) :
  sim_listeners (simulation (runListener l fs))
  = sim_listeners (simulation fs).
Proof.
  destruct l; simpl.
  - apply tick_listeners.
  - destruct (endSimulationCallback fs); reflexivity.
Qed.

Lemma dispatch_listeners (type : string) (fs : ForceSimulation) :
  sim_listeners (simulation (dispatch type fs))
  = sim_listeners (simulation fs).
Proof.
  unfold dispatch.
  destruct (mapGet type (sim_listeners (simulation fs)));
    [apply runListener_listeners | reflexivity].
Qed.

Lemma step_listeners (fs : ForceSimulation) :
  sim_listeners (simulation (step fs)) = sim_listeners (simulation fs).
Proof.
  unfold step.
  destruct (Rlt_dec _ _).
  - rewrite dispatch_listeners. simpl. rewrite dispatch_listeners.
    reflexivity.
  - rewrite dispatch_listeners. reflexivity.
Qed.

Lemma perform_listeners (c : Call) (fs : ForceSimulation) :
  sim_listeners (simulation (perform c fs))
  = sim_listeners (simulation fs).
Proof.
  destruct c; simpl; try reflexivity.
  - rewrite tick_listeners. reflexivity.
  - unfold frame. destruct (sim_stepper (simulation fs));
      [apply step_listeners | reflexivity].
Qed.

Lemma performAll_snoc (cs : list Call) (c : Call) (fs : ForceSimulation) :
  performAll (cs ++ [c]) fs = perform c (performAll cs fs).
Proof. unfold performAll. rewrite fold_left_app. reflexivity. Qed.

Lemma reachable_wired (fs : ForceSimulation) : reachable fs -> wired fs.
Proof.
  intros [cs ->]. unfold wired.
  induction cs as [|c cs IH] using rev_ind.
  - reflexivity.
  - rewrite performAll_snoc, perform_listeners. exact IH.
Qed.

Lemma dispatch_tick (fs : ForceSimulation) :
  wired fs -> dispatch "tick" fs = runListener OnTick fs.
Proof. unfold wired, dispatch. intros ->. reflexivity. Qed.

Lemma dispatch_end (fs : ForceSimulation) :
  wired fs -> dispatch "end" fs = runListener OnEnd fs.
Proof. unfold wired, dispatch. intros ->. reflexivity. Qed.

(** ** The force registry *)

Lemma mapSet_idem {V : Type} (name : string) (v : V)
      (m : list (string * V)) :
  mapSet name v (mapSet name v m) = mapSet name v m.
Proof.
  induction m as [|[n w] rest IH]; simpl.
  - rewrite String.eqb_refl. reflexivity.
  - destruct (String.eqb n name) eqn:E; simpl; rewrite E;
      [reflexivity | rewrite IH; reflexivity].
Qed.

Lemma mapKeys_mapSet_in {V : Type} (name : string) (v : V)
      (m : list (string * V)) :
  In name (mapKeys m) -> mapKeys (mapSet name v m) = mapKeys m.
Proof.
  induction m as [|[n w] rest IH]; simpl; intros Hin.
  - contradiction.
  - destruct (String.eqb_spec n name); simpl.
    + reflexivity.
    + f_equal. apply IH. destruct Hin; [contradiction | assumption].
Qed.

Lemma mapKeys_mapSet_notin {V : Type} (name : string) (v : V)
      (m : list (string * V)) :
  ~ In name (mapKeys m) -> mapKeys (mapSet name v m) = mapKeys m ++ [name].
Proof.
  induction m as [|[n w] rest IH]; simpl; intros Hin.
  - reflexivity.
  - destruct (String.eqb_spec n name); simpl.
    + exfalso. apply Hin. left. assumption.
    + f_equal. apply IH. intros H. apply Hin. right. exact H.
Qed.

Lemma mapSet_NoDup {V : Type} (name : string) (v : V)
      (m : list (string * V)) :
  NoDup (mapKeys m) -> NoDup (mapKeys (mapSet name v m)).
Proof.
  intros Hnd.
  destruct (in_dec string_dec name (mapKeys m)) as [Hin|Hin].
  - rewrite mapKeys_mapSet_in; assumption.
  - rewrite mapKeys_mapSet_notin by assumption.
    apply NoDup_app; repeat split; try assumption.
    + constructor; [intros [] | constructor].
    + intros k Hk [<-|[]]. exact (Hin Hk).
Qed.

(** ** Seeding on the circle *)

Lemma placeFrom_length (i k : nat) (c : R * R) (r : R)
      (ns : list NodeModel) :
  List.length (placeFrom i k c r ns) = List.length ns.
Proof.
  revert i. induction ns as [|n ns IH]; intros i; simpl; auto.
Qed.

Lemma placeFrom_ids (i k : nat) (c : R * R) (r : R) (ns : list NodeModel) :
  map id (placeFrom i k c r ns) = map id ns.
Proof.
  revert i. induction ns as [|n ns IH]; intros i; simpl; [reflexivity|].
  rewrite IH. reflexivity.
Qed.

Lemma placeFrom_nth (i k : nat) (c : R * R) (r : R) (ns : list NodeModel)
      (j : nat) (n : NodeModel) :
  nth_error (placeFrom i k c r ns) j = Some n ->
  x n = fst c + r * sin (2 * PI * INR (i + j) / INR k)
  /\ y n = snd c + r * cos (2 * PI * INR (i + j) / INR k).
Proof.
  revert i j. induction ns as [|m ns IH]; intros i j H.
  - destruct j; discriminate.
  - destruct j as [|j]; simpl in H.
    + injection H as <-. simpl. rewrite Nat.add_0_r. split; reflexivity.
    + apply IH in H. replace (i + S j)%nat with (S i + j)%nat by lia.
      exact H.
Qed.

Lemma initializeNode_position (n : NodeModel) :
  x (D3.initializeNode n) = x n /\ y (D3.initializeNode n) = y n
  /\ id (D3.initializeNode n) = id n.
Proof.
  unfold D3.initializeNode. destruct (vx n), (vy n); repeat split.
Qed.

Lemma initializeNodes_nth (ns : list NodeModel) (j : nat) (n : NodeModel) :
  nth_error (D3.initializeNodes ns) j = Some n ->
  exists m, nth_error ns j = Some m /\ x n = x m /\ y n = y m.
Proof.
  unfold D3.initializeNodes. rewrite nth_error_map.
  destruct (nth_error ns j) as [m|]; simpl; intros H; [|discriminate].
  injection H as <-. exists m.
  destruct (initializeNode_position m) as (Hx & Hy & _). auto.
Qed.

Lemma reseed_idem (i k : nat) (c : R * R) (r : R) (ns : list NodeModel) :
  D3.initializeNodes
    (placeFrom i k c r (D3.initializeNodes (placeFrom i k c r ns)))
  = D3.initializeNodes (placeFrom i k c r ns).
Proof.
  revert i. induction ns as [|n ns IH]; intros i; simpl; [reflexivity|].
  f_equal.
  - unfold D3.initializeNode. simpl. destruct (vx n), (vy n); reflexivity.
  - apply IH.
Qed.

(** ** Animation frames *)

Lemma advance_fields (fs : ForceSimulation) :
  sim_alpha (simulation (advance fs))
  = sim_alpha (simulation fs) * frameDecay
  /\ sim_alphaMin (simulation (advance fs)) = sim_alphaMin (simulation fs)
  /\ sim_stepper (simulation (advance fs)) = sim_stepper (simulation fs)
  /\ sim_listeners (simulation (advance fs))
     = sim_listeners (simulation fs)
  /\ sim_forces (simulation (advance fs)) = sim_forces (simulation fs)
  /\ endSimulationCallback (advance fs) = endSimulationCallback fs
  /\ trace (advance fs)
     = trace fs ++ Ticked :: repeat Ticked TICKS_PER_RENDER ++ [Rendered].
Proof.
  unfold advance, runListener, render, emit, simulationTick, frameDecay.
  cbn [simulation endSimulationCallback trace].
  rewrite <- tick_add.
  rewrite tick_alpha, tick_alphaMin, tick_stepper, tick_listeners,
    tick_forces.
  repeat split.
  rewrite <- !app_assoc. reflexivity.
Qed.

Lemma step_wired (fs : ForceSimulation) :
  wired fs ->
  step fs =
  if Rlt_dec (sim_alpha (simulation fs) * frameDecay)
             (sim_alphaMin (simulation fs))
  then advance fs |> withSimulation D3.stop |> runListener OnEnd
  else advance fs.
Proof.
  intros W. unfold step.
  assert (dispatch "tick" (simulationTick 1 fs) = advance fs) as ->.
  { unfold advance. apply dispatch_tick. unfold wired in *. simpl.
    exact W. }
  destruct (advance_fields fs) as (Ha & Hm & _ & Hl & _).
  rewrite Ha, Hm.
  destruct (Rlt_dec _ _); [|reflexivity].
  apply dispatch_end. unfold wired in *.
  change (sim_listeners (simulation (advance fs))
          = [("tick", OnTick); ("end", OnEnd)]).
  rewrite Hl. exact W.
Qed.

Lemma frames_add (n m : nat) (fs : ForceSimulation) :
  frames (n + m) fs = frames m (frames n fs).
Proof.
  revert fs. induction n as [|n IH]; intros fs; simpl; [reflexivity|].
  apply IH.
Qed.

Lemma frames_stopped (n : nat) (fs : ForceSimulation) :
  sim_stepper (simulation fs) = false -> frames n fs = fs.
Proof.
  intros Hs. induction n as [|n IH]; simpl; [reflexivity|].
  unfold frame at 1. rewrite Hs. exact IH.
Qed.

Lemma endCalls_advance (fs : ForceSimulation) :
  endCalls (trace (advance fs)) = endCalls (trace fs).
Proof.
  destruct (advance_fields fs) as (_ & _ & _ & _ & _ & _ & ->).
  rewrite endCalls_app. simpl. rewrite endCalls_app, endCalls_ticks.
  simpl. apply app_nil_r.
Qed.

(** Without a registered callback no end callback is ever called. *)
Lemma frames_unregistered (n : nat) (fs : ForceSimulation) :
  wired fs ->
  endSimulationCallback fs = None ->
  endCalls (trace (frames n fs)) = endCalls (trace fs)
  /\ endSimulationCallback (frames n fs) = None.
Proof.
  revert fs. induction n as [|n IH]; intros fs W Hc; simpl; [auto|].
  assert (wired (frame fs) /\ endSimulationCallback (frame fs) = None
          /\ endCalls (trace (frame fs)) = endCalls (trace fs))
    as (W' & Hc' & He).
  { unfold frame. destruct (sim_stepper (simulation fs)); [|auto].
    destruct (advance_fields fs) as (_ & _ & _ & Hl & _ & Hcb & _).
    rewrite (step_wired fs W).
    destruct (Rlt_dec _ _).
    - unfold runListener, withSimulation, wired in *.
      cbn [endSimulationCallback]. rewrite Hcb, Hc.
      cbn [setEndSimulationCallback simulation endSimulationCallback trace
           D3.stop sim_listeners].
      rewrite Hl.
      repeat split; [exact W | apply endCalls_advance].
    - unfold wired in *. rewrite Hl, Hcb.
      repeat split; [exact W | exact Hc | apply endCalls_advance]. }
  destruct (IH (frame fs) W' Hc') as [H1 H2].
  rewrite H1, He. auto.
Qed.

(** ** Convergence *)

Lemma alphaDecay_bounds : 0 < 1 - D3.alphaDecay < 1.
Proof.
  unfold D3.alphaDecay.
  replace (1 - (1 - Rpower (1 / 1000) (/ 300)))
    with (Rpower (1 / 1000) (/ 300)) by ring.
  unfold Rpower. split; [apply exp_pos|].
  assert (ln (1 / 1000) < 0) as Hln.
  { rewrite <- ln_1. apply ln_increasing; lra. }
  assert (0 < / 300) as Hinv by (apply Rinv_0_lt_compat; lra).
  assert (0 < / 300 * - ln (1 / 1000)) as Hprod
      by (apply Rmult_lt_0_compat; lra).
  assert (exp (/ 300 * ln (1 / 1000)) < exp 0) as Hexp
      by (apply exp_increasing; lra).
  rewrite exp_0 in Hexp. exact Hexp.
Qed.

Lemma frameDecay_bounds : 0 < frameDecay < 1.
Proof.
  unfold frameDecay. destruct alphaDecay_bounds as [H0 H1].
  split; [apply pow_lt; exact H0|].
  apply pow_lt_1_compat; [lra | lia].
Qed.

Lemma eventually_below (a floor : R) :
  0 < floor -> exists N, a * frameDecay ^ (S N) < floor.
Proof.
  intros Hf. destruct frameDecay_bounds as [H0 H1].
  assert (0 < Rabs a + 1) as Hpos by (pose proof (Rabs_pos a); lra).
  assert (0 < floor / (Rabs a + 1)) as Heps
      by (apply Rdiv_lt_0_compat; assumption).
  destruct (pow_lt_1_zero frameDecay) with (y := floor / (Rabs a + 1))
    as [N HN].
  - rewrite Rabs_pos_eq; lra.
  - exact Heps.
  - exists N. specialize (HN (S N) (Nat.le_succ_diag_r N)).
    set (z := frameDecay ^ S N) in *.
    assert (0 < z) as Hz by (apply pow_lt; exact H0).
    rewrite (Rabs_pos_eq z) in HN by lra.
    assert (z * (Rabs a + 1) < floor) as Hlt.
    { apply (Rmult_lt_compat_r (Rabs a + 1)) in HN; [|exact Hpos].
      unfold Rdiv in HN. rewrite Rmult_assoc, Rinv_l in HN by lra.
      lra. }
    pose proof (Rle_abs a). nra.
Qed.

(** The animation frame at which the engine finds alpha below the
    floor. *)
Lemma frame_converges (cb : Callback) (fs : ForceSimulation) :
  wired fs ->
  sim_stepper (simulation fs) = true ->
  endSimulationCallback fs = Some cb ->
  sim_alpha (simulation fs) * frameDecay < sim_alphaMin (simulation fs) ->
  let f := frame fs in
  sim_stepper (simulation f) = false
  /\ sim_alpha (simulation f) < sim_alphaMin (simulation f)
  /\ endCalls (trace f) = endCalls (trace fs) ++ [cb]
  /\ endSimulationCallback f = None
  /\ wired f
  /\ sim_alphaMin (simulation f) = sim_alphaMin (simulation fs).
Proof.
  intros W Hs Hcb Hlt f. unfold f, frame. rewrite Hs, (step_wired fs W).
  destruct (Rlt_dec _ _) as [_|Hn]; [|contradiction].
  destruct (advance_fields fs) as (Ha & Hm & _ & Hl & _ & Hc & _).
  unfold runListener, withSimulation.
  cbn [endSimulationCallback]. rewrite Hc, Hcb.
  unfold wired in *.
  cbn [emit setEndSimulationCallback simulation endSimulationCallback trace
       D3.stop sim_listeners sim_stepper sim_alpha sim_alphaMin].
  rewrite Ha, Hm, Hl, endCalls_app, endCalls_advance.
  repeat split; assumption.
Qed.

Lemma frame_continues (fs : ForceSimulation) :
  wired fs ->
  sim_stepper (simulation fs) = true ->
  ~ sim_alpha (simulation fs) * frameDecay < sim_alphaMin (simulation fs) ->
  frame fs = advance fs.
Proof.
  intros W Hs Hn. unfold frame. rewrite Hs, (step_wired fs W).
  destruct (Rlt_dec _ _); [contradiction | reflexivity].
Qed.

(** A running simulation with a registered callback, whose alpha gets
    below the floor within [S N] frames, stops at one of these frames,
    calls the callback there and nowhere before, and clears it. *)
Lemma runs_to_convergence (cb : Callback) (N : nat) :
  forall fs,
    wired fs ->
    sim_stepper (simulation fs) = true ->
    endSimulationCallback fs = Some cb ->
    sim_alpha (simulation fs) * frameDecay ^ (S N)
    < sim_alphaMin (simulation fs) ->
    exists n,
      (1 <= n <= S N)%nat
      /\ (forall m, (m < n)%nat ->
            sim_stepper (simulation (frames m fs)) = true
            /\ endCalls (trace (frames m fs)) = endCalls (trace fs)
            /\ endSimulationCallback (frames m fs) = Some cb
            /\ (m = 0%nat
                \/ ~ sim_alpha (simulation (frames m fs))
                     < sim_alphaMin (simulation (frames m fs))))
      /\ sim_stepper (simulation (frames n fs)) = false
      /\ sim_alpha (simulation (frames n fs))
         < sim_alphaMin (simulation (frames n fs))
      /\ endCalls (trace (frames n fs)) = endCalls (trace fs) ++ [cb]
      /\ endSimulationCallback (frames n fs) = None
      /\ wired (frames n fs)
      /\ sim_alphaMin (simulation (frames n fs))
         = sim_alphaMin (simulation fs).
Proof.
  assert (now : forall fs,
             wired fs ->
             sim_stepper (simulation fs) = true ->
             endSimulationCallback fs = Some cb ->
             sim_alpha (simulation fs) * frameDecay
             < sim_alphaMin (simulation fs) ->
             forall m, (m < 1)%nat ->
               sim_stepper (simulation (frames m fs)) = true
               /\ endCalls (trace (frames m fs)) = endCalls (trace fs)
               /\ endSimulationCallback (frames m fs) = Some cb
               /\ (m = 0%nat
                   \/ ~ sim_alpha (simulation (frames m fs))
                        < sim_alphaMin (simulation (frames m fs)))).
  { intros fs _ Hs Hcb _ m Hm. assert (m = 0%nat) as -> by lia.
    simpl. auto. }
  induction N as [|N IH]; intros fs W Hs Hcb Hlt.
  - exists 1%nat. rewrite pow_1 in Hlt.
    split; [lia|]. split; [apply now; assumption|].
    apply (frame_converges cb fs); assumption.
  - destruct (Rlt_dec (sim_alpha (simulation fs) * frameDecay)
                      (sim_alphaMin (simulation fs))) as [Hnow|Hlater].
    + exists 1%nat. split; [lia|]. split; [apply now; assumption|].
      apply (frame_converges cb fs); assumption.
    + pose proof (frame_continues fs W Hs Hlater) as Hf.
      destruct (advance_fields fs) as (Ha & Hm & Hst & Hl & _ & Hc & _).
      destruct (IH (advance fs)) as (n & Hn & Hbefore & Hat).
      * unfold wired in *. rewrite Hl. exact W.
      * rewrite Hst. exact Hs.
      * rewrite Hc. exact Hcb.
      * rewrite Ha, Hm. simpl in Hlt |- *.
        replace (sim_alpha (simulation fs) * frameDecay
                 * (frameDecay * frameDecay ^ N))
          with (sim_alpha (simulation fs)
                * (frameDecay * (frameDecay * frameDecay ^ N))) by ring.
        exact Hlt.
      * exists (S n). split; [lia|]. split.
        -- intros [|m] Hlm.
           ++ simpl. auto.
           ++ simpl. rewrite Hf.
              destruct (Hbefore m ltac:(lia)) as (H1 & H2 & H3 & H4).
              rewrite endCalls_advance in H2.
              repeat split; try assumption.
              right. destruct H4 as [-> | H4]; [|exact H4].
              cbn [frames]. rewrite Ha, Hm. exact Hlater.
        -- simpl. rewrite Hf. rewrite endCalls_advance, Hm in Hat.
           exact Hat.
Qed.

(** ** Sequences of calls *)

Lemma step_forces (fs : ForceSimulation) :
  sim_forces (simulation (step fs)) = sim_forces (simulation fs).
Proof.
  assert (Hd : forall type f,
             sim_forces (simulation (dispatch type f))
             = sim_forces (simulation f)).
  { intros type f. unfold dispatch.
    destruct (mapGet type (sim_listeners (simulation f))) as [[|]|];
      simpl; [apply tick_forces | | reflexivity].
    destruct (endSimulationCallback f); reflexivity. }
  unfold step. destruct (Rlt_dec _ _); rewrite !Hd; simpl;
    rewrite ?Hd; reflexivity.
Qed.

Lemma perform_forces (c : Call) (fs : ForceSimulation) :
  sim_forces (simulation (perform c fs)) =
  match c with
  | CallUpdateNodes _ =>
      mapSet "collide" (ForceCollide FORCE_COLLIDE_RADIUS)
             (sim_forces (simulation fs))
  | CallUpdateRelationships graph =>
      mapSet "link" (ForceLink (oneRelationshipPerPairOfNodes graph)
                               FORCE_LINK_DISTANCE)
             (sim_forces (simulation fs))
  | _ => sim_forces (simulation fs)
  end.
Proof.
  destruct c; simpl; try reflexivity.
  - rewrite tick_forces. reflexivity.
  - unfold frame. destruct (sim_stepper (simulation fs));
      [apply step_forces | reflexivity].
Qed.

Lemma hasForce_perform (name : string) (c : Call) (fs : ForceSimulation) :
  hasForce name (perform c fs) =
  hasForce name fs
  || (isUpdateNodes c && String.eqb name "collide")
  || (isUpdateRelationships c && String.eqb name "link").
Proof.
  unfold hasForce. rewrite perform_forces.
  destruct c; simpl; rewrite ?orb_false_r; try reflexivity.
  - destruct (String.eqb_spec name "collide") as [->|Hne].
    + rewrite mapGet_mapSet_same, orb_true_r. reflexivity.
    + rewrite mapGet_mapSet_other by exact Hne.
      rewrite orb_false_r. reflexivity.
  - destruct (String.eqb_spec name "link") as [->|Hne].
    + rewrite mapGet_mapSet_same, orb_true_r. reflexivity.
    + rewrite mapGet_mapSet_other by exact Hne.
      rewrite orb_false_r. reflexivity.
Qed.

Lemma hasForce_performAll (name : string) (cs : list Call)
      (fs : ForceSimulation) :
  hasForce name (performAll cs fs) =
  hasForce name fs
  || (existsb isUpdateNodes cs && String.eqb name "collide")
  || (existsb isUpdateRelationships cs && String.eqb name "link").
Proof.
  induction cs as [|c cs IH] using rev_ind.
  - simpl. rewrite !orb_false_r. reflexivity.
  - rewrite performAll_snoc, hasForce_perform, IH, !existsb_app. simpl.
    destruct (hasForce name fs), (existsb isUpdateNodes cs),
      (existsb isUpdateRelationships cs), (isUpdateNodes c),
      (isUpdateRelationships c), (String.eqb name "collide"),
      (String.eqb name "link"); reflexivity.
Qed.

(** The forces of the constructor stay as they are. *)
Lemma mapGet_performAll (name : string) (cs : list Call)
      (fs : ForceSimulation) :
  name <> "collide" -> name <> "link" ->
  mapGet name (sim_forces (simulation (performAll cs fs)))
  = mapGet name (sim_forces (simulation fs)).
Proof.
  intros Hc Hl. induction cs as [|c cs IH] using rev_ind; [reflexivity|].
  rewrite performAll_snoc, perform_forces.
  destruct c; rewrite ?mapGet_mapSet_other by assumption; exact IH.
Qed.

(** As long as neither [restart] nor [precompute] is called, the timer
    stays stopped and nothing happens. *)
Lemma performAll_idle (cs : list Call) (fs : ForceSimulation) :
  existsb runsEngine cs = false ->
  sim_stepper (simulation fs) = false ->
  sim_stepper (simulation (performAll cs fs)) = false
  /\ trace (performAll cs fs) = trace fs.
Proof.
  induction cs as [|c cs IH] using rev_ind; intros Hq Hs; [auto|].
  rewrite existsb_app in Hq. apply orb_false_elim in Hq.
  destruct Hq as [Hq Hc]. simpl in Hc. rewrite orb_false_r in Hc.
  destruct (IH Hq Hs) as [Hs' Ht'].
  rewrite performAll_snoc.
  destruct c; simpl in Hc; try discriminate; simpl; auto.
  unfold frame. rewrite Hs'. auto.
Qed.

(** ** Callbacks called and callbacks registered *)

Lemma runListener_spent (l : Listener) (fs : ForceSimulation) :
  spent (runListener l fs) = spent fs.
Proof.
  unfold spent, pending. destruct l; simpl.
  - rewrite !endCalls_app, endCalls_ticks, !length_app. simpl. lia.
  - destruct (endSimulationCallback fs); simpl; [|lia].
    rewrite endCalls_app, length_app. simpl. lia.
Qed.

Lemma dispatch_spent (type : string) (fs : ForceSimulation) :
  spent (dispatch type fs) = spent fs.
Proof.
  unfold dispatch.
  destruct (mapGet type (sim_listeners (simulation fs)));
    [apply runListener_spent | reflexivity].
Qed.

Lemma simulationTick_spent (n : nat) (fs : ForceSimulation) :
  spent (simulationTick n fs) = spent fs.
Proof.
  unfold spent, pending. simpl.
  rewrite endCalls_app, endCalls_ticks, app_nil_r. reflexivity.
Qed.

Lemma frame_spent (fs : ForceSimulation) : spent (frame fs) = spent fs.
Proof.
  unfold frame. destruct (sim_stepper (simulation fs)); [|reflexivity].
  unfold step. destruct (Rlt_dec _ _).
  - rewrite dispatch_spent.
    change (spent (withSimulation D3.stop
                     (dispatch "tick" (simulationTick 1 fs))))
      with (spent (dispatch "tick" (simulationTick 1 fs))).
    rewrite dispatch_spent. apply simulationTick_spent.
  - rewrite dispatch_spent. apply simulationTick_spent.
Qed.

Lemma perform_spent (c : Call) (fs : ForceSimulation) :
  (spent (perform c fs)
   <= spent fs + (if isRegistration c then 1 else 0))%nat.
Proof.
  destruct c as [g|g| | |cb|]; simpl.
  - unfold spent, pending. simpl. lia.
  - unfold spent, pending. simpl. lia.
  - unfold precompute, render.
    unfold spent, pending. simpl.
    rewrite !endCalls_app, endCalls_ticks, !length_app. simpl. lia.
  - unfold spent, pending. simpl. lia.
  - unfold spent, pending. simpl.
    destruct cb, (endSimulationCallback fs); lia.
  - rewrite frame_spent. lia.
Qed.

Lemma performAll_spent (cs : list Call) :
  (spent (performAll cs constructor) <= registrations cs)%nat.
Proof.
  induction cs as [|c cs IH] using rev_ind.
  - unfold spent, pending. simpl. lia.
  - rewrite performAll_snoc. unfold registrations in *.
    rewrite filter_app, length_app.
    pose proof (perform_spent c (performAll cs constructor)) as Hc.
    simpl. destruct (isRegistration c); simpl; lia.
Qed.

(** A cycle of a controller with a registered callback, from [restart]
    to convergence and beyond. *)
Lemma restart_cycle (fs : ForceSimulation) (cb : Callback) :
  reachable fs ->
  0 < DEFAULT_ALPHA_MIN ->
  endSimulationCallback fs = Some cb ->
  exists n,
    (1 <= n)%nat
    /\ (forall m, (m < n)%nat ->
          let running := frames m (restart fs) in
          sim_stepper (simulation running) = true
          /\ endCalls (trace running) = endCalls (trace fs)
          /\ endSimulationCallback running = Some cb
          /\ (m = 0%nat
              \/ ~ sim_alpha (simulation running)
                   < sim_alphaMin (simulation running)))
    /\ let converged := frames n (restart fs) in
       sim_alpha (simulation converged) < DEFAULT_ALPHA_MIN
       /\ sim_stepper (simulation converged) = false
       /\ endCalls (trace converged) = endCalls (trace fs) ++ [cb]
       /\ endSimulationCallback converged = None
       /\ (forall m, (n <= m)%nat -> frames m (restart fs) = converged)
       /\ (forall m,
             endCalls (trace (frames m (restart converged)))
             = endCalls (trace fs) ++ [cb])
       /\ (forall cb', exists n',
             endCalls
               (trace (frames n'
                         (restart
                            (setEndSimulationCallback (Some cb')
                                                      converged))))
             = endCalls (trace fs) ++ [cb; cb']).
Proof.
  intros Hreach Hfloor Hcb.
  pose proof (reachable_wired fs Hreach) as W.
  assert (W0 : wired (restart fs)) by exact W.
  destruct (eventually_below DEFAULT_ALPHA DEFAULT_ALPHA_MIN Hfloor)
    as [N HN].
  destruct (runs_to_convergence cb N (restart fs) W0 eq_refl Hcb HN)
    as (n & Hn & Hbefore & Hstop & Hlow & Hcalls & Hclear & Wn & Hmin).
  exists n. split; [lia|]. split; [exact Hbefore|].
  cbv zeta. repeat split.
  - rewrite Hmin in Hlow. exact Hlow.
  - exact Hstop.
  - exact Hcalls.
  - exact Hclear.
  - intros m Hm. replace m with (n + (m - n))%nat by lia.
    rewrite frames_add. apply frames_stopped. exact Hstop.
  - intros m.
    destruct (frames_unregistered m (restart (frames n (restart fs))))
      as [He _]; [exact Wn | exact Hclear |].
    rewrite He. exact Hcalls.
  - intros cb'.
    set (again := restart (setEndSimulationCallback (Some cb')
                             (frames n (restart fs)))).
    destruct (eventually_below DEFAULT_ALPHA DEFAULT_ALPHA_MIN Hfloor)
      as [N' HN'].
    destruct (runs_to_convergence cb' N' again Wn eq_refl eq_refl HN')
      as (n' & _ & _ & _ & _ & Hcalls' & _).
    exists n'. rewrite Hcalls'.
    change (trace again) with (trace (frames n (restart fs))).
    rewrite Hcalls, <- app_assoc. reflexivity.
Qed.

(** ** Claims *)

(** C1: the relationship list that [updateRelationships] hands to the link
    force holds exactly one representative per distinct unordered pair of
    endpoint nodes.  It has as many entries as the pair-grouping accessor
    reports groups, the groups have pairwise different pairs, every entry
    is a relationship of the graph, every relationship of the graph has
    exactly one entry for its pair, the list is no longer than the
    relationship list and it is empty when the graph has no
    relationship. *)
Theorem link_input_one_per_pair (graph : GraphModel) (fs : ForceSimulation) :
  let input := oneRelationshipPerPairOfNodes graph in
  linkForceInput (updateRelationships graph fs) = Some input
  /\ List.length input = List.length (groupedRelationships graph)
  /\ distinctKeys (map pairKey (groupedRelationships graph))
  /\ (forall entry, In entry input ->
        exists r, entry = Some r /\ In r (graph_relationships graph))
  /\ (forall r, In r (graph_relationships graph) ->
        List.length (filter (representsPair r) input) = 1%nat)
  /\ (List.length input <= List.length (graph_relationships graph))%nat
  /\ (graph_relationships graph = [] -> input = []).
Proof.
  intros input.
  pose proof (groupedRelationships_grouped graph) as [_ Hd _ Hl].
  repeat split.
  - unfold linkForceInput. rewrite updateRelationships_link. reflexivity.
  - apply length_map.
  - exact Hd.
  - apply oneRelationship_members.
  - apply oneRelationship_represented.
  - unfold input, oneRelationshipPerPairOfNodes. rewrite length_map. exact Hl.
  - intros Hnil. unfold input, oneRelationshipPerPairOfNodes,
      groupedRelationships. rewrite Hnil. reflexivity.
Qed.

(** C2, as the code has it: [updateRelationships] does not compare the
    endpoints of a relationship with the node set.  The list it hands to
    the link force is the first relationship of every group of the
    pair-grouping accessor, whatever the node set is, so every
    relationship of the graph, with or without its endpoints in the node
    set, has an entry for its pair in the list; the call always installs
    the link force. *)
Theorem link_input_ignores_node_set (graph : GraphModel)
        (fs : ForceSimulation) (others : list NodeModel) :
  let input := oneRelationshipPerPairOfNodes graph in
  linkForceInput (updateRelationships graph fs) = Some input
  /\ oneRelationshipPerPairOfNodes
       (mkGraph others (graph_relationships graph)) = input
  /\ (forall r, In r (graph_relationships graph) ->
        exists r', In (Some r') input /\ samePair r r' = true).
Proof.
  intros input. repeat split.
  - unfold linkForceInput. rewrite updateRelationships_link. reflexivity.
  - intros r Hr.
    pose proof (oneRelationship_represented graph r Hr) as Hone.
    fold input in Hone.
    destruct (filter (representsPair r) input) as [|entry rest] eqn:E;
      [discriminate|].
    assert (In entry (filter (representsPair r) input)) as Hin
        by (rewrite E; left; reflexivity).
    apply filter_In in Hin. destruct Hin as [Hin Hrep].
    destruct entry as [r'|]; [|discriminate].
    exists r'. split; assumption.
Qed.

(** C3: [precompute] stops the timer, then runs exactly
    [PRECOMPUTED_TICKS] iterations of the engine's loop within the call,
    then calls the render callback once.  No event is dispatched, the
    end callback is neither called nor cleared, and the timer is left
    stopped, so the animation frames that follow do nothing. *)
Theorem precompute_synchronous (fs : ForceSimulation) :
  let fs' := precompute fs in
  simulation fs'
  = D3.tick applyForce PRECOMPUTED_TICKS (D3.stop (simulation fs))
  /\ trace fs' = trace fs ++ repeat Ticked PRECOMPUTED_TICKS ++ [Rendered]
  /\ tickCount (trace fs')
     = (tickCount (trace fs) + PRECOMPUTED_TICKS)%nat
  /\ renderCount (trace fs') = S (renderCount (trace fs))
  /\ endCalls (trace fs') = endCalls (trace fs)
  /\ endSimulationCallback fs' = endSimulationCallback fs
  /\ sim_stepper (simulation fs') = false
  /\ (forall n, frames n fs' = fs').
Proof.
  intros fs'.
  assert (trace fs' = trace fs ++ repeat Ticked PRECOMPUTED_TICKS
                               ++ [Rendered]) as Ht.
  { unfold fs', precompute, render, emit, simulationTick. simpl.
    rewrite <- app_assoc. reflexivity. }
  assert (sim_stepper (simulation fs') = false) as Hs.
  { unfold fs', precompute. simpl. rewrite tick_stepper. reflexivity. }
  repeat split.
  - exact Ht.
  - rewrite Ht, !tickCount_app, tickCount_ticks.
    replace (tickCount [Rendered]) with 0%nat by reflexivity. lia.
  - rewrite Ht, !renderCount_app, renderCount_ticks.
    replace (renderCount [Rendered]) with 1%nat by reflexivity. lia.
  - rewrite Ht, !endCalls_app, endCalls_ticks. simpl.
    apply app_nil_r.
  - exact Hs.
  - induction n as [|n IH]; simpl; [reflexivity|].
    unfold frame at 1. rewrite Hs. exact IH.
Qed.

(** C4: an end callback is called at most once for each time it is
    registered, whatever is done to the controller: the number of calls
    never exceeds the number of registrations.  And a cycle of a
    controller with a registered end callback and a positive alpha floor
    goes as follows: after [restart], the animation frames reach one, the
    first at which the engine finds alpha below the floor, at which the
    timer stops, the callback is called and the field is cleared; no frame
    before it calls any callback, and every frame after it leaves the
    controller as it is.  A later cycle started by [restart] calls no
    callback at all unless one is registered again, and then calls that
    one once. *)
Theorem end_callback_fires_once :
  (forall cs,
      (List.length (endCalls (trace (performAll cs constructor)))
       <= registrations cs)%nat)
  /\ (forall fs cb,
        reachable fs ->
        0 < DEFAULT_ALPHA_MIN ->
        endSimulationCallback fs = Some cb ->
        exists n,
          (1 <= n)%nat
          /\ (forall m, (m < n)%nat ->
                let running := frames m (restart fs) in
                sim_stepper (simulation running) = true
                /\ endCalls (trace running) = endCalls (trace fs)
                /\ endSimulationCallback running = Some cb
                /\ (m = 0%nat
                    \/ ~ sim_alpha (simulation running)
                         < sim_alphaMin (simulation running)))
          /\ let converged := frames n (restart fs) in
             sim_alpha (simulation converged) < DEFAULT_ALPHA_MIN
             /\ sim_stepper (simulation converged) = false
             /\ endCalls (trace converged) = endCalls (trace fs) ++ [cb]
             /\ endSimulationCallback converged = None
             /\ (forall m, (n <= m)%nat -> frames m (restart fs) = converged)
             /\ (forall m,
                   endCalls (trace (frames m (restart converged)))
                   = endCalls (trace fs) ++ [cb])
             /\ (forall cb', exists n',
                   endCalls
                     (trace (frames n'
                               (restart
                                  (setEndSimulationCallback (Some cb')
                                                            converged))))
                   = endCalls (trace fs) ++ [cb; cb'])).
Proof.
  split.
  - intros cs. pose proof (performAll_spent cs) as H. unfold spent in H. lia.
  - exact restart_cycle.
Qed.

(** C5: for a graph of [k] nodes, [updateNodes] hands the engine [k]
    nodes, the same nodes in the same order, each on the circle around
    the origin of radius [k * LINK_DISTANCE / (2 * PI)], the node of
    index [i] at the angle [2 * PI * i / k].  For a graph without nodes
    the radius is 0 and the engine gets the empty node list. *)
Theorem updateNodes_seeds_circle (graph : GraphModel)
        (fs : ForceSimulation) :
  let k := List.length (nodes graph) in
  let radius := INR k * LINK_DISTANCE / (2 * PI) in
  let seeded := sim_nodes (simulation (updateNodes graph fs)) in
  List.length seeded = k
  /\ map id seeded = map id (nodes graph)
  /\ (forall i n, nth_error seeded i = Some n ->
        x n = 0 + radius * sin (2 * PI * INR i / INR k)
        /\ y n = 0 + radius * cos (2 * PI * INR i / INR k))
  /\ (forall n, In n seeded ->
        (x n - 0) * (x n - 0) + (y n - 0) * (y n - 0) = radius * radius)
  /\ (k = 0%nat -> radius = 0 /\ seeded = []).
Proof.
  intros k radius seeded.
  assert (Hseeded : seeded = D3.initializeNodes
                      (placeFrom 0 k (0, 0) radius (nodes graph))).
  { unfold seeded, updateNodes, withSimulation, circularLayout. simpl.
    unfold radius, k.
    replace (2 * PI) with (PI * 2) by ring. reflexivity. }
  assert (Hnth : forall i n, nth_error seeded i = Some n ->
            x n = 0 + radius * sin (2 * PI * INR i / INR k)
            /\ y n = 0 + radius * cos (2 * PI * INR i / INR k)).
  { intros i n H. rewrite Hseeded in H.
    apply initializeNodes_nth in H. destruct H as (m & Hm & -> & ->).
    apply placeFrom_nth in Hm. exact Hm. }
  repeat split.
  - rewrite Hseeded. unfold D3.initializeNodes.
    rewrite length_map, placeFrom_length. reflexivity.
  - rewrite Hseeded. unfold D3.initializeNodes.
    rewrite map_map.
    rewrite (map_ext _ id (fun n => proj2 (proj2 (initializeNode_position n)))).
    apply placeFrom_ids.
  - apply Hnth; assumption.
  - apply Hnth; assumption.
  - intros n Hin. apply In_nth_error in Hin. destruct Hin as [i Hi].
    destruct (Hnth i n Hi) as [-> ->].
    pose proof (sin2_cos2 (2 * PI * INR i / INR k)) as Hsc.
    unfold Rsqr in Hsc.
    replace (0 + radius * sin (2 * PI * INR i / INR k) - 0)
      with (radius * sin (2 * PI * INR i / INR k)) by ring.
    replace (0 + radius * cos (2 * PI * INR i / INR k) - 0)
      with (radius * cos (2 * PI * INR i / INR k)) by ring.
    transitivity (radius * radius
                  * (sin (2 * PI * INR i / INR k)
                     * sin (2 * PI * INR i / INR k)
                     + cos (2 * PI * INR i / INR k)
                       * cos (2 * PI * INR i / INR k))); [ring|].
    rewrite Hsc. ring.
  - unfold radius. rewrite H. simpl. unfold Rdiv. ring.
  - rewrite Hseeded. unfold k in H.
    destruct (nodes graph); [reflexivity | discriminate].
Qed.

(** C6: whatever the state before, [restart] leaves alpha at
    [DEFAULT_ALPHA] and the alpha floor at [DEFAULT_ALPHA_MIN] and starts
    the timer, so that the next animation frame runs the engine's step.
    Nothing else changes. *)
Theorem restart_resets (fs : ForceSimulation) :
  let fs' := restart fs in
  sim_alpha (simulation fs') = DEFAULT_ALPHA
  /\ sim_alphaMin (simulation fs') = DEFAULT_ALPHA_MIN
  /\ sim_stepper (simulation fs') = true
  /\ frame fs' = step fs'
  /\ sim_nodes (simulation fs') = sim_nodes (simulation fs)
  /\ sim_forces (simulation fs') = sim_forces (simulation fs)
  /\ sim_listeners (simulation fs') = sim_listeners (simulation fs)
  /\ endSimulationCallback fs' = endSimulationCallback fs
  /\ trace fs' = trace fs.
Proof. repeat split. Qed.

(** C7: a second [updateNodes] on the same node list changes nothing: the
    engine holds the same nodes, as many as the graph has, and the same
    forces under the same names, whether the graph's nodes are read as
    the first call left them or as they were before it.  Registering a
    force under a name that is already in the registry keeps the names as
    they are and puts the new force in the place of the old one, so names
    that were unique stay unique. *)
Theorem updateNodes_idempotent (graph : GraphModel) (fs : ForceSimulation) :
  let fs1 := updateNodes graph fs in
  let graph1 := mkGraph (sim_nodes (simulation fs1))
                        (graph_relationships graph) in
  updateNodes graph1 fs1 = fs1
  /\ updateNodes graph fs1 = fs1
  /\ List.length (sim_nodes (simulation fs1)) = List.length (nodes graph)
  /\ (NoDup (mapKeys (sim_forces (simulation fs))) ->
      NoDup (mapKeys (sim_forces (simulation fs1))))
  /\ (forall name f s,
        In name (mapKeys (sim_forces s)) ->
        mapKeys (sim_forces (D3.force name f s)) = mapKeys (sim_forces s)
        /\ mapGet name (sim_forces (D3.force name f s)) = Some f).
Proof.
  intros fs1 graph1.
  assert (Hlen : List.length (sim_nodes (simulation fs1))
                 = List.length (nodes graph)).
  { unfold fs1, updateNodes, withSimulation, circularLayout. simpl.
    unfold D3.initializeNodes. rewrite length_map, placeFrom_length.
    reflexivity. }
  repeat split.
  - pose proof reseed_idem as Hre.
    unfold fs1, graph1, updateNodes, withSimulation, circularLayout, nodes,
      D3.force, D3.nodes, D3.initializeNodes in *.
    simpl. rewrite mapSet_idem, !length_map, !placeFrom_length, Hre.
    reflexivity.
  - unfold fs1, updateNodes, withSimulation, circularLayout. simpl.
    unfold D3.force, D3.nodes. simpl.
    rewrite mapSet_idem. reflexivity.
  - exact Hlen.
  - intros Hnd. unfold fs1, updateNodes, withSimulation. simpl.
    apply mapSet_NoDup. exact Hnd.
  - simpl. apply mapKeys_mapSet_in. assumption.
  - simpl. apply mapGet_mapSet_same.
Qed.

(** C8: [updateRelationships] installs the force named 'link' and changes
    nothing else: the nodes with their positions and velocities, alpha,
    the alpha floor, the velocity decay, the timer, the listeners, the
    end callback, the effects so far and the force registered under any
    other name are the same before and after the call. *)
Theorem updateRelationships_frame (graph : GraphModel)
        (fs : ForceSimulation) :
  let fs' := updateRelationships graph fs in
  mapGet "link" (sim_forces (simulation fs'))
  = Some (ForceLink (oneRelationshipPerPairOfNodes graph)
                    FORCE_LINK_DISTANCE)
  /\ (forall name, name <> "link" ->
        mapGet name (sim_forces (simulation fs'))
        = mapGet name (sim_forces (simulation fs)))
  /\ sim_nodes (simulation fs') = sim_nodes (simulation fs)
  /\ sim_alpha (simulation fs') = sim_alpha (simulation fs)
  /\ sim_alphaMin (simulation fs') = sim_alphaMin (simulation fs)
  /\ sim_velocityDecay (simulation fs') = sim_velocityDecay (simulation fs)
  /\ sim_stepper (simulation fs') = sim_stepper (simulation fs)
  /\ sim_listeners (simulation fs') = sim_listeners (simulation fs)
  /\ endSimulationCallback fs' = endSimulationCallback fs
  /\ simulationTimeout fs' = simulationTimeout fs
  /\ trace fs' = trace fs.
Proof.
  intros fs'. repeat split.
  - apply updateRelationships_link.
  - intros name Hne. unfold fs', updateRelationships, withSimulation. simpl.
    apply mapGet_mapSet_other. exact Hne.
Qed.

(** C9: the listener that the constructor attaches to the engine's tick
    event runs [TICKS_PER_RENDER] iterations of the engine's loop and
    then calls the render callback once.  An animation frame of a running
    simulation is the engine's own iteration followed by this listener,
    so it runs [1 + TICKS_PER_RENDER] iterations and renders once; a
    frame of a stopped simulation does nothing. *)
Theorem frame_ticks_then_renders (fs : ForceSimulation) :
  reachable fs ->
  let listened := dispatch "tick" fs in
  simulation listened = D3.tick applyForce TICKS_PER_RENDER (simulation fs)
  /\ trace listened
     = trace fs ++ repeat Ticked TICKS_PER_RENDER ++ [Rendered]
  /\ (sim_stepper (simulation fs) = true ->
      exists rest,
        trace (frame fs)
        = trace fs ++ [Ticked] ++ repeat Ticked TICKS_PER_RENDER
                   ++ [Rendered] ++ rest
        /\ tickCount rest = 0%nat /\ renderCount rest = 0%nat)
  /\ (sim_stepper (simulation fs) = true ->
      tickCount (trace (frame fs))
      = (tickCount (trace fs) + 1 + TICKS_PER_RENDER)%nat
      /\ renderCount (trace (frame fs)) = S (renderCount (trace fs)))
  /\ (sim_stepper (simulation fs) = false -> frame fs = fs).
Proof.
  intros Hreach listened.
  pose proof (reachable_wired fs Hreach) as W.
  assert (Hframe : sim_stepper (simulation fs) = true ->
            exists rest,
              trace (frame fs)
              = trace fs ++ [Ticked] ++ repeat Ticked TICKS_PER_RENDER
                         ++ [Rendered] ++ rest
              /\ tickCount rest = 0%nat /\ renderCount rest = 0%nat).
  { intros Hs. unfold frame. rewrite Hs, (step_wired fs W).
    destruct (advance_fields fs) as (_ & _ & _ & _ & _ & _ & Ht).
    destruct (Rlt_dec _ _).
    - unfold runListener, withSimulation. cbn [endSimulationCallback].
      destruct (endSimulationCallback (advance fs)) as [cb|].
      + exists [EndCallbackCalled cb].
        cbn [emit setEndSimulationCallback trace]. rewrite Ht.
        rewrite <- !app_assoc. simpl. rewrite <- app_assoc. auto.
      + exists []. cbn [setEndSimulationCallback trace]. rewrite Ht.
        simpl. auto.
    - exists []. rewrite Ht. simpl. auto. }
  unfold listened. rewrite (dispatch_tick fs W).
  repeat split.
  - unfold runListener, render, emit, simulationTick. simpl.
    rewrite <- app_assoc. reflexivity.
  - exact Hframe.
  - destruct (Hframe H) as (rest & -> & Ht & _).
    rewrite !tickCount_app, tickCount_ticks, Ht.
    replace (tickCount [Ticked]) with 1%nat by reflexivity.
    replace (tickCount [Rendered]) with 0%nat by reflexivity. lia.
  - destruct (Hframe H) as (rest & -> & _ & Hr).
    rewrite !renderCount_app, renderCount_ticks, Hr.
    replace (renderCount [Ticked]) with 0%nat by reflexivity.
    replace (renderCount [Rendered]) with 1%nat by reflexivity. lia.
  - intros Hs. unfold frame. rewrite Hs. reflexivity.
Qed.

(** C10: a controller as the constructor leaves it has its timer stopped,
    has done nothing yet, and has exactly the forces 'charge', 'centerX'
    and 'centerY' with the configured strengths.  Whatever is done to it
    short of [restart] and [precompute] (animation frames, [updateNodes],
    [updateRelationships], registering a callback), its timer stays
    stopped and it runs no iteration and renders nothing.  After any
    calls, the force 'collide' is there exactly when [updateNodes] was
    called and the force 'link' exactly when [updateRelationships] was,
    and the three forces of the constructor are unchanged. *)
Theorem constructor_stopped :
  let fresh := constructor in
  sim_stepper (simulation fresh) = false
  /\ trace fresh = []
  /\ sim_forces (simulation fresh)
     = [("charge", ForceManyBody FORCE_CHARGE);
        ("centerX", ForceX 0 FORCE_CENTER_X);
        ("centerY", ForceY 0 FORCE_CENTER_Y)]
  /\ (forall cs, existsb runsEngine cs = false ->
        sim_stepper (simulation (performAll cs fresh)) = false
        /\ trace (performAll cs fresh) = [])
  /\ (forall cs,
        let fs := performAll cs fresh in
        hasForce "collide" fs = existsb isUpdateNodes cs
        /\ hasForce "link" fs = existsb isUpdateRelationships cs
        /\ mapGet "charge" (sim_forces (simulation fs))
           = Some (ForceManyBody FORCE_CHARGE)
        /\ mapGet "centerX" (sim_forces (simulation fs))
           = Some (ForceX 0 FORCE_CENTER_X)
        /\ mapGet "centerY" (sim_forces (simulation fs))
           = Some (ForceY 0 FORCE_CENTER_Y)).
Proof.
  intros fresh. repeat split.
  - apply (performAll_idle cs fresh H eq_refl).
  - apply (performAll_idle cs fresh H eq_refl).
  - rewrite hasForce_performAll. simpl.
    rewrite andb_true_r, andb_false_r, orb_false_r. reflexivity.
  - rewrite hasForce_performAll. simpl.
    rewrite andb_true_r, andb_false_r. reflexivity.
  - rewrite mapGet_performAll by discriminate. reflexivity.
  - rewrite mapGet_performAll by discriminate. reflexivity.
  - rewrite mapGet_performAll by discriminate. reflexivity.
Qed.

(** ** Further properties of the controller *)

Lemma mapSet_overwrite {V : Type} (name : string) (v w : V)
      (m : list (string * V)) :
  mapSet name w (mapSet name v m) = mapSet name w m.
Proof.
  induction m as [|[n u] rest IH]; simpl.
  - rewrite String.eqb_refl. reflexivity.
  - destruct (String.eqb n name) eqn:E; simpl; rewrite E;
      [reflexivity | rewrite IH; reflexivity].
Qed.

Lemma mapSet_commute {V : Type} (n1 n2 : string) (v1 v2 : V)
      (m : list (string * V)) :
  n1 <> n2 ->
  In n1 (mapKeys m) \/ In n2 (mapKeys m) ->
  mapSet n1 v1 (mapSet n2 v2 m) = mapSet n2 v2 (mapSet n1 v1 m).
Proof.
  intros Hne. induction m as [|[n u] rest IH]; simpl; intros Hin.
  - destruct Hin as [[]|[]].
  - destruct (String.eqb n n2) eqn:E2; destruct (String.eqb n n1) eqn:E1;
      simpl; rewrite ?E1, ?E2; try reflexivity.
    + apply String.eqb_eq in E1, E2. congruence.
    + f_equal. apply IH.
      apply String.eqb_neq in E1, E2.
      destruct Hin as [[?|?]|[?|?]]; try congruence; auto.
Qed.

Lemma mapGet_mapSet {V : Type} (name other : string) (v : V)
      (m : list (string * V)) :
  mapGet other (mapSet name v m)
  = if String.eqb other name then Some v else mapGet other m.
Proof.
  destruct (String.eqb_spec other name) as [->|Hne].
  - apply mapGet_mapSet_same.
  - apply mapGet_mapSet_other. exact Hne.
Qed.

Lemma mapGet_in_keys {V : Type} (name : string) (m : list (string * V)) :
  mapGet name m <> None -> In name (mapKeys m).
Proof.
  induction m as [|[n u] rest IH]; simpl; intros H; [congruence|].
  destruct (String.eqb_spec n name); [left; assumption | right; auto].
Qed.


(** X2: an update call overrides an earlier call of the same kind
    altogether: after two calls of [updateRelationships], or two calls of
    [updateNodes], on any two graphs, the controller is exactly as if only
    the second call had been made.  Nothing of the first call's link force,
    collision force or node list is left behind. *)
Theorem update_overrides (g1 g2 : GraphModel) (fs : ForceSimulation) :
  updateRelationships g2 (updateRelationships g1 fs)
  = updateRelationships g2 fs
  /\ updateNodes g2 (updateNodes g1 fs) = updateNodes g2 fs.
Proof.
  split.
  - unfold updateRelationships, withSimulation, D3.force. simpl.
    rewrite mapSet_overwrite. reflexivity.
  - unfold updateNodes, withSimulation, D3.force, D3.nodes. simpl.
    rewrite mapSet_overwrite. reflexivity.
Qed.

(** X3: [updateNodes] and [updateRelationships] can be called in either
    order.  Both orders give the same nodes and the same force under every
    name, and leave everything else alike; once one of the forces
    'collide' and 'link' is registered, both orders give the very same
    controller state.  (On a fresh controller the two orders differ in the
    order of the two new names in the registry only.) *)
Theorem updates_commute (gn gr : GraphModel) (fs : ForceSimulation) :
  let nr := fs |> updateNodes gn |> updateRelationships gr in
  let rn := fs |> updateRelationships gr |> updateNodes gn in
  (forall name, mapGet name (sim_forces (simulation nr))
                = mapGet name (sim_forces (simulation rn)))
  /\ sim_nodes (simulation nr) = sim_nodes (simulation rn)
  /\ sim_alpha (simulation nr) = sim_alpha (simulation rn)
  /\ sim_stepper (simulation nr) = sim_stepper (simulation rn)
  /\ trace nr = trace rn
  /\ (hasForce "collide" fs = true \/ hasForce "link" fs = true -> nr = rn).
Proof.
  intros nr rn. repeat split.
  - intros name. unfold nr, rn, updateNodes, updateRelationships,
      withSimulation, D3.force, D3.nodes. simpl.
    rewrite !mapGet_mapSet.
    destruct (String.eqb_spec name "link") as [->|Hl]; [reflexivity|].
    destruct (String.eqb_spec name "collide"); reflexivity.
  - intros Hhas. unfold nr, rn, updateNodes, updateRelationships,
      withSimulation, D3.force, D3.nodes. simpl.
    rewrite (mapSet_commute "link" "collide"); [reflexivity | discriminate |].
    unfold hasForce in Hhas.
    destruct Hhas as [H|H]; [right | left]; apply mapGet_in_keys;
      destruct (mapGet _ _); congruence.
Qed.

Lemma advance_counts (fs : ForceSimulation) :
  renderCount (trace (advance fs)) = S (renderCount (trace fs))
  /\ tickCount (trace (advance fs))
     = (tickCount (trace fs) + S TICKS_PER_RENDER)%nat.
Proof.
  destruct (advance_fields fs) as (_ & _ & _ & _ & _ & _ & ->).
  change (Ticked :: repeat Ticked TICKS_PER_RENDER ++ [Rendered])
    with (repeat Ticked (S TICKS_PER_RENDER) ++ [Rendered]).
  rewrite !renderCount_app, !tickCount_app, renderCount_ticks,
    tickCount_ticks.
  replace (renderCount [Rendered]) with 1%nat by reflexivity.
  replace (tickCount [Rendered]) with 0%nat by reflexivity.
  split; lia.
Qed.

(** What the end listener adds to the counts: nothing. *)
Lemma onEnd_counts (fs : ForceSimulation) :
  let fs' := fs |> withSimulation D3.stop |> runListener OnEnd in
  renderCount (trace fs') = renderCount (trace fs)
  /\ tickCount (trace fs') = tickCount (trace fs)
  /\ sim_stepper (simulation fs') = false
  /\ sim_alpha (simulation fs') = sim_alpha (simulation fs)
  /\ sim_alphaMin (simulation fs') = sim_alphaMin (simulation fs)
  /\ sim_listeners (simulation fs') = sim_listeners (simulation fs).
Proof.
  unfold runListener, withSimulation. cbn [endSimulationCallback].
  destruct (endSimulationCallback fs); simpl; repeat split.
  - rewrite renderCount_app. unfold renderCount at 2. simpl. lia.
  - rewrite tickCount_app. unfold tickCount at 2. simpl. lia.
Qed.

(** A running simulation whose alpha gets below the floor within [S N]
    frames stops at the first frame that finds it there, having rendered
    once per frame. *)
Lemma runs_to_stop (N : nat) :
  forall fs,
    wired fs ->
    sim_stepper (simulation fs) = true ->
    sim_alpha (simulation fs) * frameDecay ^ (S N)
    < sim_alphaMin (simulation fs) ->
    exists n,
      (1 <= n <= S N)%nat
      /\ (forall m, (m < n)%nat ->
            sim_stepper (simulation (frames m fs)) = true)
      /\ (forall m, (1 <= m < n)%nat ->
            ~ sim_alpha (simulation fs) * frameDecay ^ m
              < sim_alphaMin (simulation fs))
      /\ sim_alpha (simulation fs) * frameDecay ^ n
         < sim_alphaMin (simulation fs)
      /\ sim_stepper (simulation (frames n fs)) = false
      /\ sim_alpha (simulation (frames n fs))
         = sim_alpha (simulation fs) * frameDecay ^ n
      /\ renderCount (trace (frames n fs))
         = (renderCount (trace fs) + n)%nat
      /\ tickCount (trace (frames n fs))
         = (tickCount (trace fs) + n * S TICKS_PER_RENDER)%nat.
Proof.
  assert (now : forall fs,
             wired fs ->
             sim_stepper (simulation fs) = true ->
             sim_alpha (simulation fs) * frameDecay
             < sim_alphaMin (simulation fs) ->
             sim_stepper (simulation (frame fs)) = false
             /\ sim_alpha (simulation (frame fs))
                = sim_alpha (simulation fs) * frameDecay ^ 1
             /\ renderCount (trace (frame fs))
                = (renderCount (trace fs) + 1)%nat
             /\ tickCount (trace (frame fs))
                = (tickCount (trace fs) + 1 * S TICKS_PER_RENDER)%nat).
  { intros fs W Hs Hlt. unfold frame. rewrite Hs, (step_wired fs W).
    destruct (Rlt_dec _ _) as [_|Hn]; [|contradiction].
    destruct (onEnd_counts (advance fs)) as (Hr & Ht & Hst & Ha & _).
    destruct (advance_counts fs) as [Hr' Ht'].
    destruct (advance_fields fs) as (Ha' & _).
    cbv zeta in Hr, Ht, Hst, Ha.
    rewrite Hr, Ht, Hst, Ha, Hr', Ht', Ha'. rewrite pow_1.
    repeat split; lia. }
  induction N as [|N IH]; intros fs W Hs Hlt.
  - rewrite pow_1 in Hlt. exists 1%nat.
    destruct (now fs W Hs Hlt) as (H1 & H2 & H3 & H4).
    split; [lia|]. split.
    { intros m Hm. assert (m = 0%nat) as -> by lia. exact Hs. }
    split; [intros m Hm; lia|].
    split; [rewrite pow_1; exact Hlt|].
    change (frames 1 fs) with (frame fs). repeat split; assumption.
  - destruct (Rlt_dec (sim_alpha (simulation fs) * frameDecay)
                      (sim_alphaMin (simulation fs))) as [Hnow|Hlater].
    + exists 1%nat.
      destruct (now fs W Hs Hnow) as (H1 & H2 & H3 & H4).
      split; [lia|]. split.
      { intros m Hm. assert (m = 0%nat) as -> by lia. exact Hs. }
      split; [intros m Hm; lia|].
      split; [rewrite pow_1; exact Hnow|].
      change (frames 1 fs) with (frame fs). repeat split; assumption.
    + pose proof (frame_continues fs W Hs Hlater) as Hf.
      destruct (advance_fields fs) as (Ha & Hm & Hst & Hl & _).
      destruct (advance_counts fs) as [Hr Ht].
      destruct (IH (advance fs)) as
          (n & Hn & Hrun & Hnot & Hlow & Hstop & Halpha & Hrc & Htc).
      * unfold wired in *. rewrite Hl. exact W.
      * rewrite Hst. exact Hs.
      * rewrite Ha, Hm. simpl in Hlt |- *.
        replace (sim_alpha (simulation fs) * frameDecay
                 * (frameDecay * frameDecay ^ N))
          with (sim_alpha (simulation fs)
                * (frameDecay * (frameDecay * frameDecay ^ N))) by ring.
        exact Hlt.
      * rewrite Ha, Hm in Hnot, Hlow. rewrite Ha in Halpha.
        exists (S n). split; [lia|]. split.
        { intros [|m] Hlm; [exact Hs|]. simpl. rewrite Hf.
          apply Hrun. lia. }
        split.
        { intros [|[|m]] Hlm; [lia| |].
          - rewrite pow_1. exact Hlater.
          - specialize (Hnot (S m) ltac:(lia)).
            replace (sim_alpha (simulation fs) * frameDecay ^ S (S m))
              with (sim_alpha (simulation fs) * frameDecay
                    * frameDecay ^ S m) by (simpl; ring).
            exact Hnot. }
        replace (sim_alpha (simulation fs) * frameDecay ^ S n)
          with (sim_alpha (simulation fs) * frameDecay * frameDecay ^ n)
          by (simpl; ring).
        simpl frames. rewrite Hf, Hrc, Htc, Hr, Ht.
        repeat split; try assumption; lia.
Qed.

(** The names the registry can hold beside those of the constructor. *)
Lemma registry_shape (cs : list Call) :
  exists rest,
    mapKeys (sim_forces (simulation (performAll cs constructor)))
    = ["charge"; "centerX"; "centerY"] ++ rest
    /\ NoDup rest
    /\ incl rest ["collide"; "link"].
Proof.
  assert (set : forall name (v : Force) m rest,
             In name ["collide"; "link"] ->
             mapKeys m = ["charge"; "centerX"; "centerY"] ++ rest ->
             NoDup rest -> incl rest ["collide"; "link"] ->
             exists rest',
               mapKeys (mapSet name v m)
               = ["charge"; "centerX"; "centerY"] ++ rest'
               /\ NoDup rest' /\ incl rest' ["collide"; "link"]).
  { intros name v m rest Hname Hk Hnd Hincl.
    destruct (in_dec string_dec name rest) as [Hin|Hin].
    - exists rest. rewrite mapKeys_mapSet_in; [auto|].
      rewrite Hk. apply in_or_app. right. exact Hin.
    - exists (rest ++ [name]). rewrite mapKeys_mapSet_notin.
      + rewrite Hk, <- app_assoc. repeat split.
        * apply NoDup_app; repeat split; try assumption.
          -- constructor; [intros [] | constructor].
          -- intros k Hk' [<-|[]]. exact (Hin Hk').
        * apply incl_app; [exact Hincl|].
          intros k [<-|[]]. exact Hname.
      + rewrite Hk. intros H. apply in_app_or in H.
        destruct H as [H|H]; [|exact (Hin H)].
        simpl in Hname, H.
        destruct Hname as [<-|[<-|[]]];
          destruct H as [H|[H|[H|[]]]]; discriminate. }
  induction cs as [|c cs IH] using rev_ind.
  - exists []. simpl. repeat split; [constructor | intros k []].
  - destruct IH as (rest & Hk & Hnd & Hincl).
    rewrite performAll_snoc, perform_forces.
    destruct c;
      [ apply (set "collide" _ _ rest); simpl; auto
      | apply (set "link" _ _ rest); simpl; auto
      | exists rest; auto .. ].
Qed.

(** X4: whatever has been done to a controller, its force registry holds
    each name once, starts with 'charge', 'centerX' and 'centerY' in this
    order, holds beside them only 'collide' and 'link', and so never holds
    more than five forces: repeated updates leave no old force behind. *)
Theorem registry_bounded (fs : ForceSimulation) :
  reachable fs ->
  let names := mapKeys (sim_forces (simulation fs)) in
  NoDup names
  /\ firstn 3 names = ["charge"; "centerX"; "centerY"]
  /\ incl names ["charge"; "centerX"; "centerY"; "collide"; "link"]
  /\ (3 <= List.length (sim_forces (simulation fs)) <= 5)%nat.
Proof.
  intros [cs ->] names.
  destruct (registry_shape cs) as (rest & Hk & Hnd & Hincl).
  fold names in Hk.
  assert (List.length rest <= 2)%nat as Hlen
      by (apply (NoDup_incl_length Hnd Hincl)).
  repeat split.
  - rewrite Hk. apply NoDup_app; repeat split.
    + repeat constructor; simpl; intuition discriminate.
    + exact Hnd.
    + intros k Hbase Hrest. apply Hincl in Hrest. simpl in Hbase, Hrest.
      destruct Hbase as [<-|[<-|[<-|[]]]];
        destruct Hrest as [H|[H|[]]]; discriminate.
  - rewrite Hk. reflexivity.
  - rewrite Hk. intros k Hin. apply in_app_or in Hin.
    destruct Hin as [Hin|Hin].
    + simpl in Hin |- *. intuition.
    + apply Hincl in Hin. simpl in Hin |- *. intuition.
  - rewrite <- (length_map fst). fold (mapKeys (sim_forces
      (simulation (performAll cs constructor)))). fold names.
    rewrite Hk, length_app. simpl. lia.
  - rewrite <- (length_map fst). fold (mapKeys (sim_forces
      (simulation (performAll cs constructor)))). fold names.
    rewrite Hk, length_app. simpl. lia.
Qed.

Lemma frame_config (fs : ForceSimulation) :
  sim_alphaMin (simulation (frame fs)) = sim_alphaMin (simulation fs)
  /\ sim_velocityDecay (simulation (frame fs))
     = sim_velocityDecay (simulation fs).
Proof.
  assert (Hd : forall type f,
             sim_alphaMin (simulation (dispatch type f))
             = sim_alphaMin (simulation f)
             /\ sim_velocityDecay (simulation (dispatch type f))
                = sim_velocityDecay (simulation f)).
  { intros type f. unfold dispatch.
    destruct (mapGet type (sim_listeners (simulation f))) as [[|]|];
      simpl; [split; apply tick_fields | | auto].
    destruct (endSimulationCallback f); auto. }
  unfold frame. destruct (sim_stepper (simulation fs)); [|auto].
  unfold step. destruct (Rlt_dec _ _).
  - destruct (Hd "end" (withSimulation D3.stop
                          (dispatch "tick" (simulationTick 1 fs))))
      as [-> ->].
    simpl. destruct (Hd "tick" (simulationTick 1 fs)) as [-> ->]. auto.
  - destruct (Hd "tick" (simulationTick 1 fs)) as [-> ->]. auto.
Qed.

(** X5: what the constructor sets up is never changed afterwards.  After
    any calls the engine still has the constructor's two listeners and the
    configured velocity decay, and its alpha floor is [DEFAULT_ALPHA_MIN]
    if [restart] was ever called and the engine's own default before
    that. *)
Theorem construction_is_kept (cs : list Call) :
  let fs := performAll cs constructor in
  sim_listeners (simulation fs) = [("tick", OnTick); ("end", OnEnd)]
  /\ sim_velocityDecay (simulation fs) = 1 - VELOCITY_DECAY
  /\ sim_alphaMin (simulation fs)
     = if existsb isRestart cs then DEFAULT_ALPHA_MIN else 1 / 1000.
Proof.
  cbv zeta. split; [apply reachable_wired; exists cs; reflexivity|].
  induction cs as [|c cs IH] using rev_ind.
  - split; reflexivity.
  - destruct IH as [Hv Hm].
    rewrite performAll_snoc, existsb_app. simpl. rewrite orb_false_r.
    destruct c; simpl; rewrite ?orb_false_r, ?orb_true_r;
      try (split; assumption).
    + rewrite tick_alphaMin. simpl. split; [|exact Hm].
      destruct (tick_fields PRECOMPUTED_TICKS
                  (D3.stop (simulation (performAll cs constructor))))
        as (_ & -> & _). exact Hv.
    + split; [exact Hv | reflexivity].
    + destruct (frame_config (performAll cs constructor)) as [-> ->].
      split; assumption.
Qed.

Lemma frame_counts (fs : ForceSimulation) :
  wired fs ->
  (renderCount (trace (frame fs)) <= renderCount (trace fs) + 1)%nat
  /\ (tickCount (trace (frame fs))
      <= tickCount (trace fs) + S TICKS_PER_RENDER)%nat.
Proof.
  intros W. unfold frame.
  destruct (sim_stepper (simulation fs)); [|split; lia].
  rewrite (step_wired fs W).
  destruct (advance_counts fs) as [Hr Ht].
  destruct (Rlt_dec _ _).
  - destruct (onEnd_counts (advance fs)) as (Hr' & Ht' & _).
    cbv zeta in Hr', Ht'. rewrite Hr', Ht', Hr, Ht. split; lia.
  - rewrite Hr, Ht. split; lia.
Qed.

(** X6: only animation frames and [precompute] run the engine and render,
    and only animation frames call an end callback.  After any calls, the
    render callback was called at most once per animation frame and per
    [precompute], and the engine ran at most [1 + TICKS_PER_RENDER]
    iterations per frame and [PRECOMPUTED_TICKS] per [precompute].  When no
    animation frame came in between, no end callback was called and the
    counts are exactly those of the [precompute] calls: [updateNodes],
    [updateRelationships], [restart] and registering a callback never
    render and never run the engine themselves. *)
Theorem only_frames_and_precompute_act (cs : list Call) :
  let fs := performAll cs constructor in
  let nframes := List.length (filter isFrame cs) in
  let nprecomputes := List.length (filter isPrecompute cs) in
  (renderCount (trace fs) <= nframes + nprecomputes)%nat
  /\ (tickCount (trace fs)
      <= nframes * S TICKS_PER_RENDER
         + nprecomputes * PRECOMPUTED_TICKS)%nat
  /\ (nframes = 0%nat ->
      endCalls (trace fs) = []
      /\ renderCount (trace fs) = nprecomputes
      /\ tickCount (trace fs)
         = (nprecomputes * PRECOMPUTED_TICKS)%nat).
Proof.
  cbv zeta.
  induction cs as [|c cs IH] using rev_ind.
  - unfold renderCount, tickCount. simpl. repeat split; lia.
  - destruct IH as (Hr & Ht & Hex).
    assert (W : wired (performAll cs constructor))
      by (apply reachable_wired; exists cs; reflexivity).
    rewrite performAll_snoc, !filter_app, !length_app.
    set (fs := performAll cs constructor) in *.
    destruct c; simpl; rewrite ?Nat.add_0_r.
    + exact (conj Hr (conj Ht Hex)).
    + exact (conj Hr (conj Ht Hex)).
    + unfold precompute, render, emit, simulationTick. simpl.
      rewrite !renderCount_app, !tickCount_app, !endCalls_app,
        renderCount_ticks, tickCount_ticks, endCalls_ticks.
      replace (renderCount [Rendered]) with 1%nat by reflexivity.
      replace (tickCount [Rendered]) with 0%nat by reflexivity.
      simpl. rewrite !app_nil_r.
      split; [lia|]. split; [lia|].
      intros H0. destruct (Hex H0) as (He & Hr' & Ht').
      repeat split; [exact He | lia | lia].
    + exact (conj Hr (conj Ht Hex)).
    + exact (conj Hr (conj Ht Hex)).
    + destruct (frame_counts fs W) as [Hfr Hft].
      split; [lia|]. split; [lia|]. intros H0. lia.
Qed.

Lemma pow_unit_interval (q : R) (n : nat) :
  0 < q < 1 -> 0 < q ^ n <= 1.
Proof.
  intros [H0 H1]. induction n as [|n [IH0 IH1]]; simpl; [lra|].
  split; [apply Rmult_lt_0_compat; assumption | nra].
Qed.

(** X7: [precompute] does not reset alpha, it cools it: alpha is
    multiplied by the engine's decay ratio once per iteration, the alpha
    floor stays, and a non-negative alpha never grows.  So [precompute]
    after [restart] leaves alpha at [DEFAULT_ALPHA] cooled by
    [PRECOMPUTED_TICKS] iterations with the timer off, while [restart]
    after [precompute] leaves it at [DEFAULT_ALPHA] with the timer on. *)
Theorem precompute_cools (fs : ForceSimulation) :
  let ratio := (1 - D3.alphaDecay) ^ PRECOMPUTED_TICKS in
  sim_alpha (simulation (precompute fs)) = sim_alpha (simulation fs) * ratio
  /\ sim_alphaMin (simulation (precompute fs)) = sim_alphaMin (simulation fs)
  /\ (0 <= sim_alpha (simulation fs) ->
      0 <= sim_alpha (simulation (precompute fs))
      <= sim_alpha (simulation fs))
  /\ sim_alpha (simulation (precompute (restart fs))) = DEFAULT_ALPHA * ratio
  /\ sim_stepper (simulation (precompute (restart fs))) = false
  /\ sim_alpha (simulation (restart (precompute fs))) = DEFAULT_ALPHA
  /\ sim_stepper (simulation (restart (precompute fs))) = true.
Proof.
  intros ratio.
  assert (Ha : forall f, sim_alpha (simulation (precompute f))
                         = sim_alpha (simulation f) * ratio).
  { intros f. unfold precompute, render, emit, simulationTick. simpl.
    rewrite tick_alpha. reflexivity. }
  destruct (pow_unit_interval _ PRECOMPUTED_TICKS alphaDecay_bounds)
    as [Hr0 Hr1]. fold ratio in Hr0, Hr1.
  repeat split.
  - apply Ha.
  - unfold precompute, render, emit, simulationTick. simpl.
    rewrite tick_alphaMin. reflexivity.
  - rewrite Ha. nra.
  - rewrite Ha. nra.
  - rewrite Ha. reflexivity.
  - unfold precompute, render, emit, simulationTick. simpl.
    rewrite tick_stepper. reflexivity.
Qed.

(** X8: an end callback that is registered after [restart], before the
    animation frames run, is called all the same: the frames reach the
    first that finds alpha below the floor, where this callback, and no
    other, is called once and the field is cleared.  A callback that was
    registered before and is replaced this way is never called. *)
Theorem callback_registered_after_restart (fs : ForceSimulation)
        (cb : Callback) :
  reachable fs ->
  0 < DEFAULT_ALPHA_MIN ->
  exists n,
    (1 <= n)%nat
    /\ (forall m, (m < n)%nat ->
          endCalls (trace (frames m (fs |> restart
                                        |> setEndSimulationCallback (Some cb))))
          = endCalls (trace fs))
    /\ let converged :=
         frames n (fs |> restart |> setEndSimulationCallback (Some cb)) in
       endCalls (trace converged) = endCalls (trace fs) ++ [cb]
       /\ endSimulationCallback converged = None
       /\ sim_stepper (simulation converged) = false.
Proof.
  intros Hreach Hfloor.
  pose proof (reachable_wired fs Hreach) as W.
  set (started := fs |> restart |> setEndSimulationCallback (Some cb)).
  destruct (eventually_below DEFAULT_ALPHA DEFAULT_ALPHA_MIN Hfloor)
    as [N HN].
  destruct (runs_to_convergence cb N started W eq_refl eq_refl HN)
    as (n & Hn & Hbefore & Hstop & _ & Hcalls & Hclear & _).
  exists n. split; [lia|]. split.
  - intros m Hm. destruct (Hbefore m Hm) as (_ & He & _). exact He.
  - cbv zeta. repeat split; assumption.
Qed.

(** X9: every cycle ends.  After [restart] on a controller with a positive
    alpha floor, with or without an end callback, the timer runs for [n]
    frames and then stops for good, where [n >= 1] is the first number of
    frames at which [DEFAULT_ALPHA], cooled frame by frame, is below
    [DEFAULT_ALPHA_MIN].  The cycle renders exactly [n] times and runs
    exactly [n * (1 + TICKS_PER_RENDER)] iterations. *)
Theorem restart_cycle_ends (fs : ForceSimulation) :
  reachable fs ->
  0 < DEFAULT_ALPHA_MIN ->
  exists n,
    (1 <= n)%nat
    /\ DEFAULT_ALPHA * frameDecay ^ n < DEFAULT_ALPHA_MIN
    /\ (forall m, (1 <= m < n)%nat ->
          ~ DEFAULT_ALPHA * frameDecay ^ m < DEFAULT_ALPHA_MIN)
    /\ (forall m, (m < n)%nat ->
          sim_stepper (simulation (frames m (restart fs))) = true)
    /\ let stopped := frames n (restart fs) in
       sim_stepper (simulation stopped) = false
       /\ sim_alpha (simulation stopped) = DEFAULT_ALPHA * frameDecay ^ n
       /\ renderCount (trace stopped) = (renderCount (trace fs) + n)%nat
       /\ tickCount (trace stopped)
          = (tickCount (trace fs) + n * S TICKS_PER_RENDER)%nat
       /\ (forall m, (n <= m)%nat -> frames m (restart fs) = stopped).
Proof.
  intros Hreach Hfloor.
  pose proof (reachable_wired fs Hreach) as W.
  assert (W0 : wired (restart fs)) by exact W.
  destruct (eventually_below DEFAULT_ALPHA DEFAULT_ALPHA_MIN Hfloor)
    as [N HN].
  destruct (runs_to_stop N (restart fs) W0 eq_refl HN)
    as (n & Hn & Hrun & Hnot & Hlow & Hstop & Halpha & Hrc & Htc).
  exists n. split; [lia|]. split; [exact Hlow|]. split; [exact Hnot|].
  split; [exact Hrun|]. cbv zeta. repeat split; try assumption.
  intros m Hm. replace m with (n + (m - n))%nat by lia.
  rewrite frames_add. apply frames_stopped. exact Hstop.
Qed.

Lemma never_below (n : nat) :
  forall fs,
    wired fs ->
    sim_stepper (simulation fs) = true ->
    0 < sim_alpha (simulation fs) ->
    sim_alphaMin (simulation fs) <= 0 ->
    sim_stepper (simulation (frames n fs)) = true
    /\ endCalls (trace (frames n fs)) = endCalls (trace fs)
    /\ endSimulationCallback (frames n fs) = endSimulationCallback fs
    /\ renderCount (trace (frames n fs)) = (renderCount (trace fs) + n)%nat.
Proof.
  induction n as [|n IH]; intros fs W Hs Ha Hm; simpl.
  - repeat split; [exact Hs | lia].
  - destruct frameDecay_bounds as [Hp0 _].
    assert (Hlater : ~ sim_alpha (simulation fs) * frameDecay
                       < sim_alphaMin (simulation fs)).
    { intros H.
      pose proof (Rmult_lt_0_compat _ _ Ha Hp0). lra. }
    rewrite (frame_continues fs W Hs Hlater).
    destruct (advance_fields fs) as (Ha' & Hm' & Hst & Hl & _ & Hc & _).
    destruct (advance_counts fs) as [Hr _].
    destruct (IH (advance fs)) as (H1 & H2 & H3 & H4).
    + unfold wired in *. rewrite Hl. exact W.
    + rewrite Hst. exact Hs.
    + rewrite Ha'. apply Rmult_lt_0_compat; assumption.
    + rewrite Hm'. exact Hm.
    + rewrite H2, H3, H4, endCalls_advance, Hc, Hr.
      repeat split; try assumption; lia.
Qed.

(** X10: with an alpha floor that is not positive and a positive starting
    alpha the animation never ends: after [restart] the timer is still
    running after any number of frames, every frame renders, and no end
    callback is ever called. *)
Theorem restart_never_ends_without_floor (fs : ForceSimulation) (n : nat) :
  reachable fs ->
  DEFAULT_ALPHA_MIN <= 0 ->
  0 < DEFAULT_ALPHA ->
  sim_stepper (simulation (frames n (restart fs))) = true
  /\ endCalls (trace (frames n (restart fs))) = endCalls (trace fs)
  /\ endSimulationCallback (frames n (restart fs)) = endSimulationCallback fs
  /\ renderCount (trace (frames n (restart fs)))
     = (renderCount (trace fs) + n)%nat.
Proof.
  intros Hreach Hfloor Halpha.
  pose proof (reachable_wired fs Hreach) as W.
  apply (never_below n (restart fs)); [exact W | reflexivity | | ];
    simpl; assumption.
Qed.

(** X15: [precompute] in the middle of a cycle puts the end callback off,
    it does not drop it.  When [restart] is followed by [precompute], the
    animation frames do nothing any more, no callback is called, and the
    registered callback stays registered; the cycle of the next [restart]
    then calls it, once. *)
Theorem precompute_postpones_callback (fs : ForceSimulation) (cb : Callback) :
  reachable fs ->
  0 < DEFAULT_ALPHA_MIN ->
  endSimulationCallback fs = Some cb ->
  let interrupted := fs |> restart |> precompute in
  (forall m, frames m interrupted = interrupted)
  /\ endCalls (trace interrupted) = endCalls (trace fs)
  /\ endSimulationCallback interrupted = Some cb
  /\ exists n,
       (1 <= n)%nat
       /\ endCalls (trace (frames n (restart interrupted)))
          = endCalls (trace fs) ++ [cb]
       /\ endSimulationCallback (frames n (restart interrupted)) = None.
Proof.
  intros Hreach Hfloor Hcb interrupted.
  assert (Hs : sim_stepper (simulation interrupted) = false).
  { unfold interrupted, precompute. simpl. rewrite tick_stepper.
    reflexivity. }
  assert (He : endCalls (trace interrupted) = endCalls (trace fs)).
  { unfold interrupted, precompute, render, emit, simulationTick. simpl.
    rewrite !endCalls_app, endCalls_ticks. simpl. rewrite !app_nil_r.
    reflexivity. }
  assert (W : wired (restart interrupted)).
  { apply reachable_wired. destruct Hreach as [cs ->].
    exists (cs ++ [CallRestart; CallPrecompute; CallRestart]).
    unfold performAll. rewrite fold_left_app. reflexivity. }
  repeat split.
  - intros m. apply frames_stopped. exact Hs.
  - exact He.
  - exact Hcb.
  - destruct (eventually_below DEFAULT_ALPHA DEFAULT_ALPHA_MIN Hfloor)
      as [N HN].
    destruct (runs_to_convergence cb N (restart interrupted) W eq_refl Hcb HN)
      as (n & Hn & _ & _ & _ & Hcalls & Hclear & _).
    exists n. split; [lia|]. split; [|exact Hclear].
    rewrite Hcalls.
    change (trace (restart interrupted)) with (trace interrupted).
    rewrite He. reflexivity.
Qed.

End Controller.

(** ** The claims on sample data *)

#[local] Existing Instance sampleConstants.
#[local] Existing Instance noForce.

(** The grouping on the sample graph: the two relationships between A and B
    fall into one group, whose first relationship stands for it. *)
Example oneRelationshipPerPairOfNodes_sample :
  oneRelationshipPerPairOfNodes sampleGraph = [Some sampleAB; Some sampleBC].
Proof. reflexivity. Qed.

(** C1 on the sample graph: the relationship from B to A has exactly one
    entry for its pair. *)
Lemma link_input_one_per_pair_witness :
  List.length (filter (representsPair sampleBA)
                      (oneRelationshipPerPairOfNodes sampleGraph)) = 1%nat.
Proof.
  apply (link_input_one_per_pair sampleGraph constructor).
  simpl. right. left. reflexivity.
Defined.

(** C2 fails as stated: the only relationship of [danglingGraph] ends at
    node Z, which neither the graph nor the engine holds, and it is in the
    list that [updateRelationships] hands to the link force. *)
Lemma dangling_relationship_in_link_input :
  let fs := constructor |> updateNodes danglingGraph
                        |> updateRelationships danglingGraph in
  hasNode (nodes danglingGraph) (id (target sampleAZ)) = false
  /\ hasNode (sim_nodes (simulation fs)) (id (target sampleAZ)) = false
  /\ linkForceInput fs = Some [Some sampleAZ].
Proof. repeat split. Qed.

(** C2 as the code has it, on the same graph. *)
Lemma link_input_ignores_node_set_witness :
  exists r', In (Some r') (oneRelationshipPerPairOfNodes danglingGraph)
             /\ samePair sampleAZ r' = true.
Proof.
  apply (link_input_ignores_node_set danglingGraph constructor []).
  simpl. left. reflexivity.
Defined.

(** C4 on a controller with the callback 7 registered. *)
Lemma end_callback_fires_once_witness :
  exists n,
    endCalls (trace (frames n (restart (setEndSimulationCallback
                                          (Some 7%nat) constructor))))
    = [7%nat].
Proof.
  destruct (proj2 end_callback_fires_once
              (setEndSimulationCallback (Some 7%nat) constructor) 7%nat)
    as (n & _ & _ & _ & _ & Hcalls & _).
  - exists [AssignEndSimulationCallback (Some 7%nat)]. reflexivity.
  - simpl. lra.
  - reflexivity.
  - exists n. exact Hcalls.
Defined.

(** C5 on the sample graph: the three nodes lie on the circle of radius
    [3 * 45 / (2 * PI)]. *)
Lemma updateNodes_seeds_circle_witness :
  let seeded := sim_nodes (simulation (updateNodes sampleGraph constructor)) in
  let n := nth 1 seeded sampleA in
  (x n - 0) * (x n - 0) + (y n - 0) * (y n - 0)
  = (INR 3 * 45 / (2 * PI)) * (INR 3 * 45 / (2 * PI)).
Proof.
  intros seeded n.
  pose proof (updateNodes_seeds_circle sampleGraph constructor) as H.
  cbv zeta in H. destruct H as (_ & _ & _ & H & _).
  apply (H n). simpl. right. left. reflexivity.
Defined.

(** C7 on the sample graph: the force names stay unique. *)
Lemma updateNodes_idempotent_witness :
  NoDup (mapKeys (sim_forces
                    (simulation (updateNodes sampleGraph constructor)))).
Proof.
  apply (updateNodes_idempotent sampleGraph constructor).
  simpl. repeat constructor; simpl; intuition discriminate.
Defined.

(** C8 on the sample graph: the charge force is as it was. *)
Lemma updateRelationships_frame_witness :
  mapGet "charge"
         (sim_forces (simulation (updateRelationships sampleGraph constructor)))
  = mapGet "charge" (sim_forces (simulation constructor)).
Proof.
  apply (updateRelationships_frame sampleGraph constructor).
  discriminate.
Defined.

(** C9 on a restarted controller: one frame runs 11 iterations and
    renders once. *)
Lemma frame_ticks_then_renders_witness :
  tickCount (trace (frame (restart constructor))) = 11%nat
  /\ renderCount (trace (frame (restart constructor))) = 1%nat.
Proof.
  destruct (frame_ticks_then_renders (restart constructor))
    as (_ & _ & _ & H & _).
  - exists [CallRestart]. reflexivity.
  - exact (H eq_refl).
Defined.

(** C10 on a controller that got nodes, relationships and two animation
    frames but was never started. *)
Lemma constructor_stopped_witness :
  let fs := performAll [AnimationFrame; CallUpdateNodes sampleGraph;
                        CallUpdateRelationships sampleGraph; AnimationFrame]
                       constructor in
  sim_stepper (simulation fs) = false /\ trace fs = [].
Proof.
  apply constructor_stopped. reflexivity.
Defined.

(** ** Properties of the graph component *)

Module GraphComponentFacts.
Import GraphComponent.

Lemma handleAll_snoc (es : list Event) (e : Event) (g : Graph) :
  handleAll (es ++ [e]) g = handle e (handleAll es g).
Proof. unfold handleAll. rewrite fold_left_app. reflexivity. Qed.


Lemma callVisualization_keeps (c : VisualizationCall) (g : Graph) :
  props (callVisualization c g) = props g
  /\ state (callVisualization c g) = state g
  /\ setStateCalls (callVisualization c g) = setStateCalls g.
Proof.
  unfold callVisualization. destruct (visualization g); repeat split.
Qed.

Lemma handle_props (e : Event) (g : Graph) : props (handle e g) = props g.
Proof.
  destruct e; simpl;
    try (apply callVisualization_keeps).
  - unfold handleZoomEvent. destruct (_ || _); reflexivity.
  - unfold handleDisplayZoomWheelInfoMessage.
    destruct (_ && _); reflexivity.
Qed.

Lemma handleAll_props (es : list Event) (g : Graph) :
  props (handleAll es g) = props g.
Proof.
  induction es as [|e es IH] using rev_ind; [reflexivity|].
  rewrite handleAll_snoc, handle_props. exact IH.
Qed.







(** X13: every click on a zoom button is passed on to the visualisation
    once, in the order of the clicks and with the zoom type of its button,
    and nothing else is: zoom events and wheel zoom attempts make no call.
    A component without a visualisation stays without one, so clicks on it
    do nothing.  Clicks change neither the state nor the props and never
    call [setState]. *)
Theorem clicks_are_forwarded (g : Graph) (es : list Event) :
  visualization (handleAll es g)
  = option_map (fun calls => calls ++ flat_map clickCall es)
               (visualization g)
  /\ props (handleAll es g) = props g
  /\ (existsb isZoomEvent es = false ->
      existsb isWheelZoomAttempt es = false ->
      state (handleAll es g) = state g
      /\ setStateCalls (handleAll es g) = setStateCalls g).
Proof.
  split; [|split].
  - assert (Hcall : forall c g0,
               visualization (callVisualization c g0)
               = option_map (fun calls => calls ++ [c])
                            (visualization g0)).
    { intros c [p s [calls|] n]; reflexivity. }
    assert (Hzoom : forall l g0,
               visualization (handleZoomEvent l g0) = visualization g0).
    { intros l g0. unfold handleZoomEvent. destruct (_ || _); reflexivity. }
    assert (Hwheel : forall g0,
               visualization (handleDisplayZoomWheelInfoMessage g0)
               = visualization g0).
    { intros g0. unfold handleDisplayZoomWheelInfoMessage.
      destruct (_ && _); reflexivity. }
    induction es as [|e es IH] using rev_ind.
    + simpl. destruct (visualization g); simpl;
        [rewrite app_nil_r|]; reflexivity.
    + rewrite handleAll_snoc, flat_map_app.
      destruct e; cbn [handle clickCall flat_map];
        unfold zoomInClicked, zoomOutClicked, zoomToFitClicked;
        rewrite ?Hcall, ?Hzoom, ?Hwheel, IH;
        destruct (visualization g); simpl;
        rewrite ?app_nil_r, <- ?app_assoc; reflexivity.
  - apply handleAll_props.
  - induction es as [|e es IH] using rev_ind; intros Hz Hw; [auto|].
    rewrite existsb_app in Hz, Hw.
    apply orb_false_elim in Hz. apply orb_false_elim in Hw.
    destruct Hz as [Hz Hze], Hw as [Hw Hwe].
    rewrite handleAll_snoc.
    destruct (IH Hz Hw) as [Hs Hn].
    destruct e; simpl in Hze, Hwe; try discriminate; cbn [handle];
      unfold zoomInClicked, zoomOutClicked, zoomToFitClicked.
    + destruct (callVisualization_keeps (ZoomByType IN) (handleAll es g))
        as (_ & -> & ->). auto.
    + destruct (callVisualization_keeps (ZoomByType OUT) (handleAll es g))
        as (_ & -> & ->). auto.
    + destruct (callVisualization_keeps (ZoomByType FIT) (handleAll es g))
        as (_ & -> & ->). auto.
Qed.

(** X14: [componentDidUpdate] calls [resize], with the new full-screen
    flag and the modifier-key prop as a boolean, exactly when the
    full-screen flag has changed, and then [init] exactly when the style
    version has changed.  With both unchanged, or without a visualisation,
    it does nothing at all; it never changes the state and never calls
    [setState]. *)
Theorem componentDidUpdate_calls (prevProps : GraphProps) (g : Graph) :
  let g' := componentDidUpdate prevProps g in
  let resized :=
    if Bool.eqb (isFullscreen (props g)) (isFullscreen prevProps)
    then []
    else [Resize (isFullscreen (props g))
                 (truthy (wheelZoomRequiresModKey (props g)))] in
  let restyled :=
    if Req_dec_T (styleVersion (props g)) (styleVersion prevProps)
    then [] else [Init] in
  visualization g'
  = option_map (fun calls => calls ++ resized ++ restyled) (visualization g)
  /\ props g' = props g
  /\ state g' = state g
  /\ setStateCalls g' = setStateCalls g
  /\ (visualization g = None -> g' = g)
  /\ (isFullscreen (props g) = isFullscreen prevProps ->
      styleVersion (props g) = styleVersion prevProps ->
      g' = g).
Proof.
  intros g' resized restyled. unfold g', resized, restyled, componentDidUpdate.
  destruct g as [p s v n]. simpl.
  destruct (Bool.eqb (isFullscreen p) (isFullscreen prevProps)) eqn:Ef;
    unfold callVisualization; simpl;
    destruct v as [calls|]; simpl;
    destruct (Req_dec_T (styleVersion p) (styleVersion prevProps)) as [Es|Es];
    simpl; rewrite <- ?app_assoc, ?app_nil_r;
    repeat split; try reflexivity; try discriminate;
    intros Hf Hs; try contradiction;
    rewrite Hf, Bool.eqb_reflx in Ef; discriminate.
Qed.


(** X13 on the sample component: clicks alone leave the state alone. *)
Lemma clicks_are_forwarded_witness :
  state (handleAll [ZoomInClick; ZoomToFitClick] sampleComponent)
  = state sampleComponent.
Proof.
  apply (clicks_are_forwarded sampleComponent [ZoomInClick; ZoomToFitClick]);
    reflexivity.
Defined.

(** X14 on the sample component: an update with the props it already has
    does nothing. *)
Lemma componentDidUpdate_calls_witness :
  componentDidUpdate (props sampleComponent) sampleComponent
  = sampleComponent.
Proof.
  apply (componentDidUpdate_calls (props sampleComponent) sampleComponent);
    reflexivity.
Defined.

End GraphComponentFacts.

(** ** Further properties on sample data *)


(** X3 on a controller that has its collision force: the two update calls
    commute. *)
Lemma updates_commute_witness :
  let fs := updateNodes danglingGraph constructor in
  fs |> updateNodes sampleGraph |> updateRelationships sampleGraph
  = fs |> updateRelationships sampleGraph |> updateNodes sampleGraph.
Proof.
  apply (updates_commute sampleGraph sampleGraph
           (updateNodes danglingGraph constructor)).
  left. reflexivity.
Defined.

(** X4 after two rounds of updates. *)
Lemma registry_bounded_witness :
  let fs := performAll [CallUpdateRelationships sampleGraph;
                        CallUpdateNodes sampleGraph;
                        CallUpdateNodes danglingGraph;
                        CallUpdateRelationships danglingGraph]
                       constructor in
  (3 <= List.length (sim_forces (simulation fs)) <= 5)%nat.
Proof.
  apply registry_bounded.
  exists [CallUpdateRelationships sampleGraph; CallUpdateNodes sampleGraph;
          CallUpdateNodes danglingGraph;
          CallUpdateRelationships danglingGraph].
  reflexivity.
Defined.

(** X6 on calls without an animation frame. *)
Lemma only_frames_and_precompute_act_witness :
  let fs := performAll [CallUpdateNodes sampleGraph; CallPrecompute;
                        CallRestart]
                       constructor in
  endCalls (trace fs) = [] /\ renderCount (trace fs) = 1%nat
  /\ tickCount (trace fs) = 300%nat.
Proof.
  destruct (only_frames_and_precompute_act
              [CallUpdateNodes sampleGraph; CallPrecompute; CallRestart])
    as (_ & _ & H).
  exact (H eq_refl).
Defined.

(** X7 on a restarted controller, whose alpha is 1. *)
Lemma precompute_cools_witness :
  0 <= sim_alpha (simulation (precompute (restart constructor))) <= 1.
Proof.
  destruct (precompute_cools (restart constructor)) as (_ & _ & H & _).
  apply H. simpl. lra.
Defined.

(** X8 on a fresh controller: the callback 9 registered after [restart]
    is called. *)
Lemma callback_registered_after_restart_witness :
  exists n,
    endCalls (trace (frames n (constructor
                                 |> restart
                                 |> setEndSimulationCallback (Some 9%nat))))
    = [9%nat].
Proof.
  destruct (callback_registered_after_restart constructor 9%nat)
    as (n & _ & _ & Hcalls & _).
  - exists []. reflexivity.
  - simpl. lra.
  - exists n. exact Hcalls.
Defined.

(** X9 on a fresh controller. *)
Lemma restart_cycle_ends_witness :
  exists n,
    sim_stepper (simulation (frames n (restart constructor))) = false
    /\ renderCount (trace (frames n (restart constructor))) = n.
Proof.
  destruct (restart_cycle_ends constructor)
    as (n & _ & _ & _ & _ & Hstop & _ & Hr & _).
  - exists []. reflexivity.
  - simpl. lra.
  - exists n. split; [exact Hstop | exact Hr].
Defined.

(** X10 on a controller configured without an alpha floor. *)
Lemma restart_never_ends_without_floor_witness :
  sim_stepper
    (simulation
       (frames (constants := floorlessConstants) 5
               (restart (constants := floorlessConstants)
                        (constructor (constants := floorlessConstants)))))
  = true.
Proof.
  apply (restart_never_ends_without_floor
           (constants := floorlessConstants)
           (constructor (constants := floorlessConstants)) 5).
  - exists []. reflexivity.
  - simpl. lra.
  - simpl. lra.
Defined.

(** X15 on a controller with the callback 7 registered. *)
Lemma precompute_postpones_callback_witness :
  let fs := setEndSimulationCallback (Some 7%nat) constructor in
  endSimulationCallback (fs |> restart |> precompute) = Some 7%nat.
Proof.
  apply (precompute_postpones_callback
           (setEndSimulationCallback (Some 7%nat) constructor) 7%nat).
  - exists [AssignEndSimulationCallback (Some 7%nat)]. reflexivity.
  - simpl. lra.
  - reflexivity.
Defined.
